(** * FurcHash, MurmurHash64A and CRC32 of mcrouter/lib/fbi/hash.c

    A shallow embedding of [src/mcrouter/lib/fbi/hash.c] and the proofs of
    the properties its specification states.

    Conventions of the embedding:
    - [uint32_t] and [uint64_t] values are integers of [Z] with the
      wrap-around of each C operation written out ([u32], [u64]);
    - a key is the list of its bytes, and [len] is the length of that list;
    - the scratch array [hash] is a list of cells, a cell being [None] while
      it is indeterminate (never written), [Some v] afterwards;
    - a C statement that has no defined result (an access outside the array,
      a read of an indeterminate object, a failed [assert]) yields a
      [Fault]; a loop without a syntactic bound runs on fuel, and running
      out of it is the fault [OutOfFuel]. *)

From Stdlib Require Import ZArith List Lia Bool Strings.Byte Sorted Btauto.
From stdpp Require Import base list.
Import ListNotations.

Local Open Scope Z_scope.

(** ** Machine integers *)

Definition u32 (x : Z) : Z := x mod 2 ^ 32.
Definition u64 (x : Z) : Z := x mod 2 ^ 64.

Definition byte_val (b : byte) : Z := Z.of_N (Byte.to_N b).

Definition byte_of_Z (z : Z) : byte :=
  match Byte.of_N (Z.to_N (z mod 256)) with
  | Some b => b
  | None => x00
  end.

(** The order in which the bytes of a [uint64_t] lie in memory: the source
    reads words with [*data++] through a cast pointer, so the value it gets is
    the platform's. *)
Inductive endianness : Set := LittleEndian | BigEndian.

Fixpoint le_load (bs : list byte) : Z :=
  match bs with
  | [] => 0
  | b :: r => byte_val b + 256 * le_load r
  end.

Fixpoint le_store (n : nat) (w : Z) : list byte :=
  match n with
  | O => []
  | S n' => byte_of_Z w :: le_store n' (w / 256)
  end.

(** [load64 e bs]: the [uint64_t] whose memory image is the 8 bytes [bs]. *)
Definition load64 (e : endianness) (bs : list byte) : Z :=
  match e with
  | LittleEndian => le_load bs
  | BigEndian => le_load (rev bs)
  end.

(** [bytes_of e k]: the memory image (8 bytes) of the [uint64_t] [k]. *)
Definition bytes_of (e : endianness) (k : Z) : list byte :=
  match e with
  | LittleEndian => le_store 8 k
  | BigEndian => rev (le_store 8 k)
  end.

(** ** MurmurHash64A (hash.c, lines 39-109) *)

Definition SEED : Z := 4193360111.

Module Murmur.

Definition m : Z := 0xc6a4a7935bd1e995.
Definition r : Z := 47.

(** One turn of the [while (data != end)] loop. *)
Definition mix_word (h k : Z) : Z :=
  let k := u64 (k * m) in
  let k := Z.lxor k (Z.shiftr k r) in
  let k := u64 (k * m) in
  let h := Z.lxor h k in
  u64 (h * m).

(** The [while (data != end)] loop: [nwords] is [len/8], the number of
    whole words; it returns the accumulator and the bytes left, [data2]. *)
Fixpoint words (e : endianness) (nwords : nat) (data : list byte) (h : Z)
  : Z * list byte :=
  match nwords with
  | O => (h, data)
  | S n => words e n (drop 8 data) (mix_word h (load64 e (take 8 data)))
  end.

(** The [switch (len & 7)], whose cases fall through from 7 down to 1. *)
Definition tail (len7 : Z) (data2 : list byte) (h : Z) : Z :=
  let at_ (i : nat) := byte_val (nth i data2 x00) in
  let h := if 7 <=? len7 then Z.lxor h (Z.shiftl (at_ 6%nat) 48) else h in
  let h := if 6 <=? len7 then Z.lxor h (Z.shiftl (at_ 5%nat) 40) else h in
  let h := if 5 <=? len7 then Z.lxor h (Z.shiftl (at_ 4%nat) 32) else h in
  let h := if 4 <=? len7 then Z.lxor h (Z.shiftl (at_ 3%nat) 24) else h in
  let h := if 3 <=? len7 then Z.lxor h (Z.shiftl (at_ 2%nat) 16) else h in
  let h := if 2 <=? len7 then Z.lxor h (Z.shiftl (at_ 1%nat) 8) else h in
  if 1 <=? len7 then u64 (Z.lxor h (at_ 0%nat) * m) else h.

(** The three closing statements. *)
Definition finish (h : Z) : Z :=
  let h := Z.lxor h (Z.shiftr h r) in
  let h := u64 (h * m) in
  Z.lxor h (Z.shiftr h r).

End Murmur.

Definition murmur_hash_64A (e : endianness) (key : list byte) (seed : Z) : Z :=
  let len := Z.of_nat (length key) in
  let h := Z.lxor seed (u64 (len * Murmur.m)) in
  let '(h, data2) := Murmur.words e (Z.to_nat (len / 8)) key h in
  let h := Murmur.tail (Z.land len 7) data2 h in
  Murmur.finish h.

Definition murmur_rehash_64A (k : Z) : Z :=
  let h := Z.lxor SEED (u64 (8 * Murmur.m)) in
  let k := u64 (k * Murmur.m) in
  let k := Z.lxor k (Z.shiftr k Murmur.r) in
  let k := u64 (k * Murmur.m) in
  let h := Z.lxor h k in
  let h := u64 (h * Murmur.m) in
  let h := Z.lxor h (Z.shiftr h Murmur.r) in
  let h := u64 (h * Murmur.m) in
  Z.lxor h (Z.shiftr h Murmur.r).

(** ** CRC32 (hash.c, lines 203-282) *)

Definition crc32tab : list Z :=
  [ 0x00000000; 0x77073096; 0xee0e612c; 0x990951ba;
    0x076dc419; 0x706af48f; 0xe963a535; 0x9e6495a3;
    0x0edb8832; 0x79dcb8a4; 0xe0d5e91e; 0x97d2d988;
    0x09b64c2b; 0x7eb17cbd; 0xe7b82d07; 0x90bf1d91;
    0x1db71064; 0x6ab020f2; 0xf3b97148; 0x84be41de;
    0x1adad47d; 0x6ddde4eb; 0xf4d4b551; 0x83d385c7;
    0x136c9856; 0x646ba8c0; 0xfd62f97a; 0x8a65c9ec;
    0x14015c4f; 0x63066cd9; 0xfa0f3d63; 0x8d080df5;
    0x3b6e20c8; 0x4c69105e; 0xd56041e4; 0xa2677172;
    0x3c03e4d1; 0x4b04d447; 0xd20d85fd; 0xa50ab56b;
    0x35b5a8fa; 0x42b2986c; 0xdbbbc9d6; 0xacbcf940;
    0x32d86ce3; 0x45df5c75; 0xdcd60dcf; 0xabd13d59;
    0x26d930ac; 0x51de003a; 0xc8d75180; 0xbfd06116;
    0x21b4f4b5; 0x56b3c423; 0xcfba9599; 0xb8bda50f;
    0x2802b89e; 0x5f058808; 0xc60cd9b2; 0xb10be924;
    0x2f6f7c87; 0x58684c11; 0xc1611dab; 0xb6662d3d;
    0x76dc4190; 0x01db7106; 0x98d220bc; 0xefd5102a;
    0x71b18589; 0x06b6b51f; 0x9fbfe4a5; 0xe8b8d433;
    0x7807c9a2; 0x0f00f934; 0x9609a88e; 0xe10e9818;
    0x7f6a0dbb; 0x086d3d2d; 0x91646c97; 0xe6635c01;
    0x6b6b51f4; 0x1c6c6162; 0x856530d8; 0xf262004e;
    0x6c0695ed; 0x1b01a57b; 0x8208f4c1; 0xf50fc457;
    0x65b0d9c6; 0x12b7e950; 0x8bbeb8ea; 0xfcb9887c;
    0x62dd1ddf; 0x15da2d49; 0x8cd37cf3; 0xfbd44c65;
    0x4db26158; 0x3ab551ce; 0xa3bc0074; 0xd4bb30e2;
    0x4adfa541; 0x3dd895d7; 0xa4d1c46d; 0xd3d6f4fb;
    0x4369e96a; 0x346ed9fc; 0xad678846; 0xda60b8d0;
    0x44042d73; 0x33031de5; 0xaa0a4c5f; 0xdd0d7cc9;
    0x5005713c; 0x270241aa; 0xbe0b1010; 0xc90c2086;
    0x5768b525; 0x206f85b3; 0xb966d409; 0xce61e49f;
    0x5edef90e; 0x29d9c998; 0xb0d09822; 0xc7d7a8b4;
    0x59b33d17; 0x2eb40d81; 0xb7bd5c3b; 0xc0ba6cad;
    0xedb88320; 0x9abfb3b6; 0x03b6e20c; 0x74b1d29a;
    0xead54739; 0x9dd277af; 0x04db2615; 0x73dc1683;
    0xe3630b12; 0x94643b84; 0x0d6d6a3e; 0x7a6a5aa8;
    0xe40ecf0b; 0x9309ff9d; 0x0a00ae27; 0x7d079eb1;
    0xf00f9344; 0x8708a3d2; 0x1e01f268; 0x6906c2fe;
    0xf762575d; 0x806567cb; 0x196c3671; 0x6e6b06e7;
    0xfed41b76; 0x89d32be0; 0x10da7a5a; 0x67dd4acc;
    0xf9b9df6f; 0x8ebeeff9; 0x17b7be43; 0x60b08ed5;
    0xd6d6a3e8; 0xa1d1937e; 0x38d8c2c4; 0x4fdff252;
    0xd1bb67f1; 0xa6bc5767; 0x3fb506dd; 0x48b2364b;
    0xd80d2bda; 0xaf0a1b4c; 0x36034af6; 0x41047a60;
    0xdf60efc3; 0xa867df55; 0x316e8eef; 0x4669be79;
    0xcb61b38c; 0xbc66831a; 0x256fd2a0; 0x5268e236;
    0xcc0c7795; 0xbb0b4703; 0x220216b9; 0x5505262f;
    0xc5ba3bbe; 0xb2bd0b28; 0x2bb45a92; 0x5cb36a04;
    0xc2d7ffa7; 0xb5d0cf31; 0x2cd99e8b; 0x5bdeae1d;
    0x9b64c2b0; 0xec63f226; 0x756aa39c; 0x026d930a;
    0x9c0906a9; 0xeb0e363f; 0x72076785; 0x05005713;
    0x95bf4a82; 0xe2b87a14; 0x7bb12bae; 0x0cb61b38;
    0x92d28e9b; 0xe5d5be0d; 0x7cdcefb7; 0x0bdbdf21;
    0x86d3d2d4; 0xf1d4e242; 0x68ddb3f8; 0x1fda836e;
    0x81be16cd; 0xf6b9265b; 0x6fb077e1; 0x18b74777;
    0x88085ae6; 0xff0f6a70; 0x66063bca; 0x11010b5c;
    0x8f659eff; 0xf862ae69; 0x616bffd3; 0x166ccf45;
    0xa00ae278; 0xd70dd2ee; 0x4e048354; 0x3903b3c2;
    0xa7672661; 0xd06016f7; 0x4969474d; 0x3e6e77db;
    0xaed16a4a; 0xd9d65adc; 0x40df0b66; 0x37d83bf0;
    0xa9bcae53; 0xdebb9ec5; 0x47b2cf7f; 0x30b5ffe9;
    0xbdbdf21c; 0xcabac28a; 0x53b39330; 0x24b4a3a6;
    0xbad03605; 0xcdd70693; 0x54de5729; 0x23d967bf;
    0xb3667a2e; 0xc4614ab8; 0x5d681b02; 0x2a6f2b94;
    0xb40bbe37; 0xc30c8ea1; 0x5a05df1b; 0x2d02ef8d ].

(** [key[i]] has type [char]; in [crc ^ key[i]] it is promoted to [int] and
    converted to [uint32_t], which extends its sign where [char] is signed. *)
Definition char_to_u32 (char_is_signed : bool) (b : byte) : Z :=
  let v := byte_val b in
  if char_is_signed && (128 <=? v) then u32 (v - 256) else v.

(** The body of the [for] loop of [crc32_hash]. *)
Definition crc32_step (char_is_signed : bool) (crc : Z) (b : byte) : Z :=
  let i := Z.land (Z.lxor crc (char_to_u32 char_is_signed b)) 0xff in
  Z.lxor (Z.shiftr crc 8) (nth (Z.to_nat i) crc32tab 0).

(** [~x] on a [uint32_t]. *)
Definition not32 (x : Z) : Z := u32 (Z.lnot x).

Definition crc32_hash (char_is_signed : bool) (key : list byte) : Z :=
  let crc := not32 0 in
  let crc := fold_left (crc32_step char_is_signed) key crc in
  not32 crc.

(** ** Outcomes of C statements *)

Inductive fault : Set :=
| OutOfBounds    (* an access outside the [hash] array *)
| Indeterminate  (* a read of an object that was never written *)
| AssertFailed   (* the [assert] of [furc_hash_array] *)
| OutOfFuel.     (* a loop of the model ran out of fuel *)

Inductive outcome (A : Type) : Type :=
| Done (a : A)
| Fault (f : fault).
Arguments Done {A} a.
Arguments Fault {A} f.

#[export] Instance outcome_ret : MRet outcome := fun A a => Done a.
#[export] Instance outcome_bind : MBind outcome := fun A B k x =>
  match x with
  | Done a => k a
  | Fault f => Fault f
  end.

(** ** The bit-stream cache (hash.c, lines 111-138) *)

(** The two objects [furc_get_bit] works on through its pointers: the array
    [hash] and the marker [*old_ord_p]. *)
Record cache : Type := Cache { hash : list (option Z); old_ord : option Z }.

(** [hash[n]] as a value. *)
Definition load (h : list (option Z)) (n : Z) : outcome Z :=
  if n <? 0 then Fault OutOfBounds
  else match h !! Z.to_nat n with
       | Some (Some v) => Done v
       | Some None => Fault Indeterminate
       | None => Fault OutOfBounds
       end.

(** [hash[n] = v]. *)
Definition store (h : list (option Z)) (n v : Z) : outcome (list (option Z)) :=
  if (0 <=? n) && (n <? Z.of_nat (length h))
  then Done (<[Z.to_nat n := Some v]> h)
  else Fault OutOfBounds.

Section BitStream.

Variable byte_order : endianness.

(** [for (n = *old_ord_p + 1; n <= ord; n++) hash[n] = ...]: [cnt] is the
    number of turns, [ord - *old_ord_p]. *)
Fixpoint fill (key : list byte) (cnt : nat) (n : Z) (h : list (option Z))
  : outcome (list (option Z)) :=
  match cnt with
  | O => Done h
  | S cnt' =>
      v ← (if n =? 0 then Done (murmur_hash_64A byte_order key SEED)
           else p ← load h (n - 1); Done (murmur_rehash_64A p));
      h' ← store h n v;
      fill key cnt' (n + 1) h'
  end.

(** [furc_get_bit(key, len, idx, hash, old_ord_p)]; the key [None] is the
    null pointer. It returns the bit and the cache it leaves. *)
Definition furc_get_bit (key : option (list byte)) (idx : Z) (c : cache)
  : outcome (Z * cache) :=
  let ord := Z.shiftr idx 6 in
  match key with
  | None => Done (0, Cache (hash c) (Some (-1)))
  | Some k =>
      old ← (match old_ord c with
             | Some o => Done o
             | None => Fault Indeterminate
             end);
      c' ← (if old <? ord
            then h ← fill k (Z.to_nat (ord - old)) (old + 1) (hash c);
                 Done (Cache h (Some ord))
            else Done c);
      v ← load (hash c') ord;
      Done (Z.land (Z.shiftr v (Z.land idx 0x3f)) 1, c')
  end.

(** A sequence of requests on one cache, in the order of the list. *)
Fixpoint get_bits (key : list byte) (idxs : list Z) (c : cache)
  : outcome (list Z * cache) :=
  match idxs with
  | [] => Done ([], c)
  | idx :: rest =>
      '(b, c1) ← furc_get_bit (Some key) idx c;
      '(bs, c2) ← get_bits key rest c1;
      Done (b :: bs, c2)
  end.

(** *** The stream as the specification defines it

    Block 0 is the mix of the key under [SEED], block [n+1] the rehash of
    block [n]; bit [i] of the stream is bit [i mod 64] of block [i / 64]. *)
Fixpoint block (key : list byte) (n : nat) : Z :=
  match n with
  | O => murmur_hash_64A byte_order key SEED
  | S n' => murmur_rehash_64A (block key n')
  end.

Definition stream_bit (key : list byte) (i : Z) : Z :=
  Z.b2z (Z.testbit (block key (Z.to_nat (i / 64))) (i mod 64)).

End BitStream.

(** ** The decision-tree walk (hash.c, lines 140-189) *)

(** The walk is instrumented with a log of its calls of [furc_get_bit] on the
    key: which attempt made the call, in which of the two inner loops, with
    which depth [d] and position [a], and the bit that came back. The log and
    the reason of the return are ghost results: nothing in the walk reads
    them. *)
Inductive phase : Set :=
| Descend  (* the [while (!furc_get_bit(...))] loop *)
| Build.   (* the [for (i = 0; i < d-1; i++)] loop *)

Record read_event : Set :=
  Read { ev_try : Z; ev_phase : phase; ev_depth : Z; ev_idx : Z; ev_bit : Z }.

Inductive exit : Set :=
| Trivial     (* line 152: [m <= 1] *)
| DepthZero   (* line 163: [--d == 0] *)
| Accepted    (* line 174: [num < m] *)
| GaveUp.     (* line 179: all attempts used *)

Record walk : Type :=
  Walk { value : Z; why : exit; final : cache; reads : list read_event }.

(** [for (d = 0; m > (1ul << d); d++) ;] where [1ul] has 64 bits: the fuel
    stands for the shift counts 0..63 that [<<] is defined for. *)
Fixpoint depth_loop (fuel : nat) (m d : Z) : outcome Z :=
  match fuel with
  | O => Fault OutOfFuel
  | S fuel' => if m >? Z.shiftl 1 d then depth_loop fuel' m (d + 1) else Done d
  end.

Section Furc.

(** The constants of [hash.h], and the byte order of the platform. *)
Variables FURC_SHIFT FURC_MAX_TRIES FURC_CACHE_SIZE : Z.
Variable byte_order : endianness.

(** [furc_maximum_pool_size()]: [(1 << FURC_SHIFT)] returned as
    [uint32_t]. *)
Definition furc_maximum_pool_size : Z := u32 (Z.shiftl 1 FURC_SHIFT).

(** [while (!furc_get_bit(key, len, a, hash, &old_ord))
       { if (--d == 0) return 0; a = d; }]
    in attempt [t]. The result [None] is the [return 0]; [Some (a, d)] are
    the position and the depth where a 1 was read. A turn that does not
    leave lowers [d - 1] (taken in [uint32_t]) by one, so
    [u32 (d - 1) + 1] turns are all the loop can make. *)
Fixpoint descend (fuel : nat) (key : list byte) (t a d : Z) (c : cache)
  : outcome (option (Z * Z) * cache * list read_event) :=
  match fuel with
  | O => Fault OutOfFuel
  | S fuel' =>
      '(b, c1) ← furc_get_bit byte_order (Some key) a c;
      let ev := Read t Descend d a b in
      if b =? 0 then
        let d' := u32 (d - 1) in
        if d' =? 0 then Done (None, c1, [ev])
        else '(r, c2, evs) ← descend fuel' key t d' d' c1;
             Done (r, c2, ev :: evs)
      else Done (Some (a, d), c1, [ev])
  end.

(** [for (i = 0; i < d-1; i++)
       { num = (num << 1) | furc_get_bit(...a...); a += FURC_SHIFT; }]
    with [cnt] the number of turns, [d - 1] taken in [uint32_t]. It
    returns [a] and [num]. *)
Fixpoint build (cnt : nat) (key : list byte) (t a d num : Z) (c : cache)
  : outcome (Z * Z * cache * list read_event) :=
  match cnt with
  | O => Done (a, num, c, [])
  | S cnt' =>
      '(b, c1) ← furc_get_bit byte_order (Some key) a c;
      let num' := Z.lor (u32 (Z.shiftl num 1)) b in
      let a' := u32 (a + FURC_SHIFT) in
      '(a2, num2, c2, evs) ← build cnt' key t a' d num' c1;
      Done (a2, num2, c2, Read t Build d a b :: evs)
  end.

(** [for (tries = ...; tries < FURC_MAX_TRIES; tries++) { ... }] followed
    by the closing [return 0]; [n] is the number of attempts left and [t]
    is [tries]. *)
Fixpoint attempts (n : nat) (key : list byte) (m t a d : Z) (c : cache)
  : outcome walk :=
  match n with
  | O => Done (Walk 0 GaveUp c [])
  | S n' =>
      '(found, c1, evs1) ←
        descend (S (Z.to_nat (u32 (d - 1)))) key t a d c;
      match found with
      | None => Done (Walk 0 DepthZero c1 evs1)
      | Some (a1, d1) =>
          let a2 := u32 (a1 + FURC_SHIFT) in
          '(a3, num, c2, evs2) ←
            build (Z.to_nat (u32 (d1 - 1))) key t a2 d1 1 c1;
          if num <? m then Done (Walk num Accepted c2 (evs1 ++ evs2))
          else w ← attempts n' key m (t + 1) a3 d1 c2;
               Done (Walk (value w) (why w) (final w)
                       (evs1 ++ evs2 ++ reads w))
      end
  end.

(** [furc_hash_array(key, len, m, hash)] with its ghost results. The
    marker [old_ord] is a local variable that starts indeterminate. The key
    is taken to be a pointer to [len] bytes, not the null pointer. *)
Definition furc_walk (key : list byte) (m : Z) (hash0 : list (option Z))
  : outcome walk :=
  let c := Cache hash0 None in
  if m >? furc_maximum_pool_size then Fault AssertFailed
  else if m <=? 1 then Done (Walk 0 Trivial c [])
  else
    '(_, c0) ← furc_get_bit byte_order None 0 c;
    d ← depth_loop 64 m 0;
    attempts (Z.to_nat FURC_MAX_TRIES) key m 0 d d c0.

Definition furc_hash_array (key : list byte) (m : Z)
    (hash0 : list (option Z)) : outcome Z :=
  w ← furc_walk key m hash0; Done (value w).

(** [furc_hash(key, len, m)]: the array is a local of [FURC_CACHE_SIZE]
    cells, none of them written. *)
Definition furc_hash (key : list byte) (m : Z) : outcome Z :=
  furc_hash_array key m (replicate (Z.to_nat FURC_CACHE_SIZE) None).

End Furc.

(** ** Conditions on the constants

    [hash.h] fixes the three constants; the walk needs of them that the pool
    limit [1 << FURC_SHIFT] and the farthest bit position the walk can reach
    fit [uint32_t], and that the array holds that position. *)
Section Conditions.

Variables FURC_SHIFT FURC_MAX_TRIES : Z.

(** No position the walk computes is beyond this one: every attempt moves
    [a] forward by at most [FURC_SHIFT] steps of [FURC_SHIFT]. *)
Definition farthest : Z :=
  FURC_SHIFT + FURC_MAX_TRIES * FURC_SHIFT * FURC_SHIFT.

Definition params_ok : Prop :=
  0 < FURC_SHIFT < 32 /\ 0 <= FURC_MAX_TRIES /\ farthest < 2 ^ 32.

(** An array of [len] cells holds bit positions [0 .. 64 * len - 1]. *)
Definition cache_fits (len : nat) : Prop :=
  farthest <= 64 * Z.of_nat len.

End Conditions.

(** ** The walk over an arbitrary bit source

    The same three loops, reading the bit at position [a] from a function
    [bit] instead of the cache, with positions and depths in [Z] without
    wrap-around. The proofs show that [attempts] computes exactly this on the
    stream of the key, and derive the shape of the log from it. *)
Section Reference.

Variable FURC_SHIFT : Z.
Variable bit : Z -> Z.

Fixpoint ref_descend (fuel : nat) (t a d : Z)
  : option (Z * Z) * list read_event :=
  match fuel with
  | O => (None, [])
  | S fuel' =>
      let ev := Read t Descend d a (bit a) in
      if bit a =? 0 then
        if d - 1 =? 0 then (None, [ev])
        else let '(r, evs) := ref_descend fuel' t (d - 1) (d - 1) in
             (r, ev :: evs)
      else (Some (a, d), [ev])
  end.

Fixpoint ref_build (cnt : nat) (t a d num : Z)
  : Z * Z * list read_event :=
  match cnt with
  | O => (a, num, [])
  | S cnt' =>
      let num' := Z.lor (u32 (Z.shiftl num 1)) (bit a) in
      let '(a2, num2, evs) := ref_build cnt' t (a + FURC_SHIFT) d num' in
      (a2, num2, Read t Build d a (bit a) :: evs)
  end.

Fixpoint ref_attempts (n : nat) (m t a d : Z)
  : Z * exit * list read_event :=
  match n with
  | O => (0, GaveUp, [])
  | S n' =>
      let '(found, evs1) := ref_descend (Z.to_nat d) t a d in
      match found with
      | None => (0, DepthZero, evs1)
      | Some (a1, d1) =>
          let '(a3, num, evs2) :=
            ref_build (Z.to_nat (d1 - 1)) t (a1 + FURC_SHIFT) d1 1 in
          if num <? m then (num, Accepted, evs1 ++ evs2)
          else let '(v, w, evs3) := ref_attempts n' m (t + 1) a3 d1 in
               (v, w, evs1 ++ evs2 ++ evs3)
      end
  end.

End Reference.

(** The column of a bit position: positions [c], [c + FURC_SHIFT],
    [c + 2 * FURC_SHIFT], ... for [1 <= c <= FURC_SHIFT] form column [c]. *)
Definition column (FURC_SHIFT p : Z) : Z := (p - 1) mod FURC_SHIFT + 1.


(** ** The invariant of the cache *)
Section Invariant.

Variable byte_order : endianness.
Variable key : list byte.

(** Cells [0 .. n-1] of [h] hold blocks [0 .. n-1] of the stream of [key]. *)
Definition filled (h : list (option Z)) (n : Z) : Prop :=
  forall i : nat,
    Z.of_nat i < n -> h !! i = Some (Some (block byte_order key i)).

(** The marker is set, it is the sentinel -1 or an index of the array, and
    the cells up to it are filled. *)
Definition cache_inv (c : cache) : Prop :=
  exists o, old_ord c = Some o /\
            -1 <= o < Z.of_nat (length (hash c)) /\
            filled (hash c) (o + 1).

End Invariant.


(** ** The order of the reads of a walk *)

(** A read of the descend loop that returned 0. *)
Definition zero_descend (e : read_event) : bool :=
  match ev_phase e with
  | Descend => ev_bit e =? 0
  | Build => false
  end.

(** [follows FURC_SHIFT e1 e2]: what the code lets the read after [e1] be.
    After a 0 in the descend loop (line 162: [--d], line 165: [a = d]) the
    next read is in the same loop at the new depth, which is also its
    position. After any other read (lines 167 and 171: [a += FURC_SHIFT])
    the next read is [FURC_SHIFT] further at the same depth, in the build
    loop of the same attempt or in the descend loop of the next one. *)
Definition follows (FURC_SHIFT : Z) (e1 e2 : read_event) : Prop :=
  if zero_descend e1 then
    1 < ev_depth e1 /\
    ev_try e2 = ev_try e1 /\ ev_phase e2 = Descend /\
    ev_depth e2 = ev_depth e1 - 1 /\ ev_idx e2 = ev_depth e1 - 1
  else
    ev_idx e2 = ev_idx e1 + FURC_SHIFT /\ ev_depth e2 = ev_depth e1 /\
    ((ev_phase e2 = Build /\ ev_try e2 = ev_try e1) \/
     (ev_phase e2 = Descend /\ ev_try e2 = ev_try e1 + 1)).

(** [chain R prev l]: [l] continues [prev], each element in relation [R] to
    the one before it. *)
Fixpoint chain {A : Type} (R : A -> A -> Prop) (prev : A) (l : list A) : Prop :=
  match l with
  | [] => True
  | x :: l' => R prev x /\ chain R x l'
  end.

(** The last element of [prev :: l]. *)
Definition last_of {A : Type} (prev : A) (l : list A) : A :=
  fold_left (fun _ x => x) l prev.

(** A read lies in the column of its depth. *)
Definition placed (FURC_SHIFT : Z) (e : read_event) : Prop :=
  1 <= ev_depth e <= FURC_SHIFT /\ 1 <= ev_idx e /\
  column FURC_SHIFT (ev_idx e) = ev_depth e.

(** [x] is read later than [e]: in a lower column, or further in the same. *)
Definition later (e x : read_event) : Prop :=
  ev_depth x < ev_depth e \/ (ev_depth x = ev_depth e /\ ev_idx e < ev_idx x).


(** ** The constants of hash.h *)
Module HashH.

(** Modelled from the spec: [hash.h], which defines [FURC_SHIFT], is not
    among the sources. The specification puts the pool limit [2^SHIFT] "in the
    low millions", and the comment that opens hash.c says that [m] "is 8
    million or less (2^FURC_SHIFT)": the shift is 23. *)
Definition FURC_SHIFT : Z := 23.

(** Modelled from the spec: [hash.h], which defines [FURC_MAX_TRIES], is not
    among the sources, and the specification only says that the number of
    attempts is "a fixed maximum". The value 32 is a sample that satisfies
    [params_ok]; the theorems hold for every such value. *)
Definition FURC_MAX_TRIES : Z := 32.

(** Modelled from the spec: [hash.h], which defines [FURC_CACHE_SIZE], is not
    among the sources, and the specification gives the array no size. The
    value 1024 is a sample that satisfies [cache_fits]; the theorems hold for
    every such value. *)
Definition FURC_CACHE_SIZE : Z := 1024.

End HashH.

(** ** The stride of the descend loop as the specification words it

    "bit positions advance by a fixed stride SHIFT per tree level, not by 1":
    two successive reads of the descend loop of one attempt are [FURC_SHIFT]
    apart. *)
Definition descend_stride_claim (FURC_SHIFT FURC_MAX_TRIES : Z)
    (byte_order : endianness) : Prop :=
  forall key m h w pre e1 e2 post,
    1 < m <= furc_maximum_pool_size FURC_SHIFT ->
    cache_fits FURC_SHIFT FURC_MAX_TRIES (length h) ->
    furc_walk FURC_SHIFT FURC_MAX_TRIES byte_order key m h = Done w ->
    reads w = pre ++ e1 :: e2 :: post ->
    ev_phase e1 = Descend -> ev_phase e2 = Descend ->
    ev_try e1 = ev_try e2 ->
    Z.abs (ev_idx e2 - ev_idx e1) = FURC_SHIFT.


(** ** Tactics *)

(** Closes the side conditions that are plain computations. *)
Ltac by_computation :=
  vm_compute; repeat split; try discriminate; try reflexivity.


(** ** One attempt of the walk on its own

    The attempt of [ref_attempts] without the test [num < m]: the descend
    from [(a, d)] and, when it finds a 1, the candidate built below it. *)
Definition ref_attempt_once (FURC_SHIFT : Z) (bit : Z -> Z) (t a d : Z)
  : Z * exit * list read_event :=
  let '(found, evs1) := ref_descend bit (Z.to_nat d) t a d in
  match found with
  | None => (0, DepthZero, evs1)
  | Some (a1, d1) =>
      let '(a3, num, evs2) :=
        ref_build FURC_SHIFT bit (Z.to_nat (d1 - 1)) t (a1 + FURC_SHIFT) d1 1 in
      (num, Accepted, evs1 ++ evs2)
  end.

(** The inverse of the multiplier [m] of MurmurHash64A modulo [2 ^ 64]. *)
Definition murmur_m_inv : Z := 6879827495036328381.

(** ** CRC-32 bit by bit

    The checksum as the division it stands for, without the table: for every
    bit of the input, the accumulator is shifted right by one and, when the
    bit shifted out is 1, the reflected generator polynomial of CRC-32 is
    xored in. The proofs show that the table of hash.c holds eight such
    steps for each byte. *)
Definition crc32_poly : Z := 0xEDB88320.

Definition crc32_bit_step (c : Z) : Z :=
  if Z.testbit c 0 then Z.lxor (Z.shiftr c 1) crc32_poly else Z.shiftr c 1.

Definition crc32_byte_bitwise (acc : Z) (b : byte) : Z :=
  Nat.iter 8 crc32_bit_step (Z.lxor acc (byte_val b)).

Definition crc32_bitwise (key : list byte) : Z :=
  not32 (fold_left crc32_byte_bitwise key 0xFFFFFFFF).

(** * Proofs *)

(** ** Bytes and words *)

Lemma byte_val_range (b : byte) : 0 <= byte_val b < 256.
Proof.
  unfold byte_val. pose proof (Byte.to_N_bounded b). lia.
Qed.

Lemma byte_val_of_Z (z : Z) : byte_val (byte_of_Z z) = z mod 256.
Proof.
  unfold byte_val, byte_of_Z.
  pose proof (Z.mod_pos_bound z 256 ltac:(lia)) as Hr.
  destruct (Byte.of_N (Z.to_N (z mod 256))) as [b|] eqn:E.
  - apply Byte.to_of_N in E. rewrite E. lia.
  - apply Byte.of_N_None_iff in E. lia.
Qed.

Lemma le_load_store (n : nat) (w : Z) :
  le_load (le_store n w) = w mod 256 ^ Z.of_nat n.
Proof.
  revert w. induction n as [|n IH]; intros w.
  - simpl. now rewrite Z.mod_1_r.
  - cbn [le_store le_load]. rewrite byte_val_of_Z, IH.
    rewrite Nat2Z.inj_succ, Z.pow_succ_r by lia.
    rewrite Z.rem_mul_r; [reflexivity | lia |].
    apply Z.pow_pos_nonneg; lia.
Qed.

Lemma le_store_length (n : nat) (w : Z) : length (le_store n w) = n.
Proof. revert w. induction n; intros; simpl; auto. Qed.

Lemma load64_bytes_of (e : endianness) (k : Z) :
  load64 e (bytes_of e k) = u64 k.
Proof.
  destruct e; unfold load64, bytes_of.
  - now rewrite le_load_store.
  - now rewrite rev_involutive, le_load_store.
Qed.

Lemma bytes_of_length (e : endianness) (k : Z) : length (bytes_of e k) = 8%nat.
Proof.
  destruct e; unfold bytes_of; rewrite ?length_rev; apply le_store_length.
Qed.

Lemma u64_mul_idemp (k c : Z) : u64 (u64 k * c) = u64 (k * c).
Proof. unfold u64. now rewrite Z.mul_mod_idemp_l by lia. Qed.

(** C4. For every value [k] of a [uint64_t], [murmur_rehash_64A k] is
    [murmur_hash_64A] of the 8 bytes that hold [k] in memory, with length 8
    and seed [SEED], whatever the byte order of the platform. *)
Theorem murmur_rehash_is_hash_of_bytes (e : endianness) (k : Z) :
  murmur_rehash_64A k = murmur_hash_64A e (bytes_of e k) SEED.
Proof.
  unfold murmur_hash_64A. rewrite bytes_of_length.
  change (Z.to_nat (Z.of_nat 8 / 8)) with 1%nat.
  change (Z.land (Z.of_nat 8) 7) with 0.
  cbn [Murmur.words].
  assert (Ht : take 8 (bytes_of e k) = bytes_of e k).
  { apply take_ge. rewrite bytes_of_length. lia. }
  rewrite Ht, load64_bytes_of.
  unfold Murmur.tail, Murmur.mix_word, Murmur.finish, murmur_rehash_64A.
  change (1 <=? 0) with false. change (2 <=? 0) with false.
  change (3 <=? 0) with false. change (4 <=? 0) with false.
  change (5 <=? 0) with false. change (6 <=? 0) with false.
  change (7 <=? 0) with false. cbv iota.
  rewrite u64_mul_idemp. reflexivity.
Qed.

(** ** CRC32 *)

Lemma crc32_index_any_sign (sg : bool) (crc : Z) (b : byte) :
  Z.land (Z.lxor crc (char_to_u32 sg b)) 0xff =
  Z.land (Z.lxor crc (byte_val b)) 0xff.
Proof.
  unfold char_to_u32. pose proof (byte_val_range b) as Hb.
  destruct (sg && (128 <=? byte_val b)) eqn:E; [|reflexivity].
  apply andb_true_iff in E as [_ E]. apply Z.leb_le in E.
  change 0xff with (Z.ones 8). rewrite !Z.land_ones by lia.
  apply Z.bits_inj'. intros n Hn.
  destruct (Z_lt_ge_dec n 8) as [Hlt|Hge].
  - rewrite !Z.mod_pow2_bits_low by lia. rewrite !Z.lxor_spec. f_equal.
    unfold u32. rewrite Z.mod_pow2_bits_low by lia.
    replace (byte_val b - 256) with (byte_val b + (-1) * 2 ^ 8) by lia.
    rewrite <- (Z.mod_pow2_bits_low _ 8 n) by lia.
    rewrite Z.mod_add by lia. apply Z.mod_pow2_bits_low. lia.
  - rewrite !Z.mod_pow2_bits_high by lia. reflexivity.
Qed.

(** C9. [crc32_hash] starts from the all-ones accumulator, folds
    [acc := (acc >> 8) xor table[(acc xor byte) & 0xFF]] over the bytes and
    returns the complement; on the empty input that is 0x00000000 and on the
    nine bytes "123456789" it is 0xCBF43926, whether [char] is signed or
    not. *)
Theorem crc32_known_vectors (sg : bool) :
  (forall key,
     crc32_hash sg key =
     not32 (fold_left
              (fun acc b =>
                 Z.lxor (Z.shiftr acc 8)
                   (nth (Z.to_nat (Z.land (Z.lxor acc (byte_val b)) 0xff))
                      crc32tab 0))
              key 0xFFFFFFFF)) /\
  crc32_hash sg [] = 0x00000000 /\
  crc32_hash sg ["1"; "2"; "3"; "4"; "5"; "6"; "7"; "8"; "9"]%byte
  = 0xCBF43926.
Proof.
  split; [|split].
  - intros key. unfold crc32_hash. change (not32 0) with 0xFFFFFFFF.
    f_equal. generalize 0xFFFFFFFF. induction key as [|b key IH]; intros acc.
    + reflexivity.
    + cbn [fold_left]. rewrite IH. f_equal.
      unfold crc32_step. now rewrite crc32_index_any_sign.
  - reflexivity.
  - destruct sg; vm_compute; reflexivity.
Qed.

(** ** The bit-stream cache *)

Lemma bind_Done {A B} (a : A) (k : A -> outcome B) : (x ← Done a; k x) = k a.
Proof. reflexivity. Qed.

Lemma low_bit_of_shift (v idx : Z) :
  0 <= idx ->
  Z.land (Z.shiftr v (Z.land idx 0x3f)) 1 = Z.b2z (Z.testbit v (idx mod 64)).
Proof.
  intros Hidx.
  change 0x3f with (Z.ones 6). rewrite Z.land_ones by lia.
  change (2 ^ 6) with 64.
  pose proof (Z.mod_pos_bound idx 64 ltac:(lia)) as Hm.
  change 1 with (Z.ones 1). rewrite Z.land_ones by lia.
  change (2 ^ 1) with 2. rewrite <- Z.bit0_mod.
  rewrite Z.shiftr_spec by lia. reflexivity.
Qed.

Section BitStreamProofs.

Variable byte_order : endianness.
Variable key : list byte.

Local Abbreviation filled := (filled byte_order key).
Local Abbreviation cache_inv := (cache_inv byte_order key).
Local Abbreviation block := (block byte_order key).

Lemma load_filled (h : list (option Z)) (n i : Z) :
  filled h n -> 0 <= i < n -> load h i = Done (block (Z.to_nat i)).
Proof.
  intros Hf Hi. unfold load.
  destruct (i <? 0) eqn:E; [apply Z.ltb_lt in E; lia|].
  rewrite (Hf (Z.to_nat i)) by lia. reflexivity.
Qed.

Lemma filled_store (h : list (option Z)) (n : Z) :
  0 <= n < Z.of_nat (length h) -> filled h n ->
  filled (<[Z.to_nat n := Some (block (Z.to_nat n))]> h) (n + 1).
Proof.
  intros Hn Hf i Hi.
  destruct (decide (i = Z.to_nat n)) as [->|Hne].
  - rewrite list_lookup_insert_eq by lia. reflexivity.
  - rewrite list_lookup_insert_ne by congruence. apply Hf. lia.
Qed.

Lemma fill_spec (cnt : nat) :
  forall (n : Z) (h : list (option Z)),
    0 <= n -> filled h n -> n + Z.of_nat cnt <= Z.of_nat (length h) ->
    exists h', fill byte_order key cnt n h = Done h' /\
               length h' = length h /\
               filled h' (n + Z.of_nat cnt).
Proof.
  induction cnt as [|cnt IH]; intros n h Hn Hf Hlen.
  - exists h. cbn [fill]. rewrite Z.add_0_r. auto.
  - cbn [fill].
    assert (Hv : (if n =? 0 then Done (murmur_hash_64A byte_order key SEED)
                  else p ← load h (n - 1); Done (murmur_rehash_64A p))
                 = Done (block (Z.to_nat n))).
    { destruct (n =? 0) eqn:E.
      - apply Z.eqb_eq in E. subst n. reflexivity.
      - apply Z.eqb_neq in E. rewrite (load_filled h n) by (auto; lia).
        rewrite bind_Done. replace (Z.to_nat n) with (S (Z.to_nat (n - 1))) by lia.
        reflexivity. }
    rewrite Hv, bind_Done. unfold store.
    assert (Hb : (0 <=? n) && (n <? Z.of_nat (length h)) = true).
    { apply andb_true_iff. split; [apply Z.leb_le|apply Z.ltb_lt]; lia. }
    rewrite Hb, bind_Done.
    destruct (IH (n + 1) (<[Z.to_nat n := Some (block (Z.to_nat n))]> h))
      as (h' & Hrun & Hl & Hf').
    + lia.
    + apply filled_store; auto. lia.
    + rewrite length_insert. lia.
    + exists h'. rewrite Hrun. rewrite length_insert in Hl.
      split; [reflexivity|]. split; [exact Hl|].
      replace (n + Z.of_nat (S cnt)) with (n + 1 + Z.of_nat cnt) by lia.
      exact Hf'.
Qed.

(** A request on a cache that satisfies the invariant returns the bit of the
    stream, whatever the marker is, and keeps the invariant. *)
Lemma furc_get_bit_spec (idx : Z) (c : cache) :
  cache_inv c -> 0 <= idx -> idx < 64 * Z.of_nat (length (hash c)) ->
  exists c', furc_get_bit byte_order (Some key) idx c
             = Done (stream_bit byte_order key idx, c') /\
             cache_inv c' /\
             length (hash c') = length (hash c).
Proof.
  intros (o & Ho & Hrange & Hf) Hidx Hfit.
  unfold furc_get_bit. rewrite Ho, bind_Done.
  rewrite Z.shiftr_div_pow2 by lia. change (2 ^ 6) with 64.
  assert (Hord : 0 <= idx / 64 < Z.of_nat (length (hash c))).
  { split; [apply Z.div_pos; lia|apply Z.div_lt_upper_bound; lia]. }
  set (ord := idx / 64) in *.
  destruct (o <? ord) eqn:E.
  - apply Z.ltb_lt in E.
    destruct (fill_spec (Z.to_nat (ord - o)) (o + 1) (hash c))
      as (h' & Hrun & Hl & Hf'); [lia|exact Hf|lia|].
    rewrite Hrun, !bind_Done. cbn [hash].
    replace (o + 1 + Z.of_nat (Z.to_nat (ord - o))) with (ord + 1) in Hf' by lia.
    rewrite (load_filled h' (ord + 1)) by (auto; lia).
    rewrite bind_Done, low_bit_of_shift by lia.
    exists (Cache h' (Some ord)). split; [reflexivity|]. split; [|exact Hl].
    exists ord. cbn [hash old_ord]. rewrite Hl.
    split; [reflexivity|]. split; [lia|exact Hf'].
  - apply Z.ltb_ge in E. rewrite bind_Done.
    rewrite (load_filled (hash c) (o + 1)) by (auto; lia).
    rewrite bind_Done, low_bit_of_shift by lia.
    exists c. split; [reflexivity|]. split; [|reflexivity].
    exists o. auto.
Qed.

(** The call with the null key sets the marker to the sentinel: the
    invariant then holds for every key, whatever the cells hold. *)
Lemma reset_spec (idx : Z) (h : list (option Z)) (o : option Z) :
  furc_get_bit byte_order None idx (Cache h o) = Done (0, Cache h (Some (-1)))
  /\ cache_inv (Cache h (Some (-1))).
Proof.
  split; [reflexivity|].
  exists (-1). cbn [hash old_ord]. split; [reflexivity|]. split; [lia|].
  intros i Hi. lia.
Qed.

(** Any sequence of requests on a cache that satisfies the invariant returns
    the bits of the stream. *)
Lemma get_bits_spec (idxs : list Z) :
  forall c,
    cache_inv c ->
    Forall (fun idx => 0 <= idx < 64 * Z.of_nat (length (hash c))) idxs ->
    exists c', get_bits byte_order key idxs c
               = Done (map (stream_bit byte_order key) idxs, c') /\
               cache_inv c' /\ length (hash c') = length (hash c).
Proof.
  induction idxs as [|idx rest IH]; intros c Hinv Hall.
  - exists c. auto.
  - inversion Hall as [|? ? [Hlo Hhi] Hrest]; subst.
    destruct (furc_get_bit_spec idx c Hinv Hlo Hhi) as (c1 & Hrun & Hinv1 & Hl1).
    destruct (IH c1 Hinv1) as (c2 & Hrun2 & Hinv2 & Hl2).
    { rewrite Hl1. exact Hrest. }
    exists c2. cbn [get_bits]. rewrite Hrun, bind_Done. cbn beta iota.
    rewrite Hrun2, bind_Done. split; [reflexivity|]. split; [exact Hinv2|].
    congruence.
Qed.

End BitStreamProofs.

(** ** The shape of the log of the reference walk *)

Lemma last_of_app {A : Type} (prev : A) (l1 l2 : list A) :
  last_of prev (l1 ++ l2) = last_of (last_of prev l1) l2.
Proof. unfold last_of. apply fold_left_app. Qed.

Lemma chain_app {A : Type} (R : A -> A -> Prop) (l1 l2 : list A) :
  forall prev,
    chain R prev l1 -> chain R (last_of prev l1) l2 -> chain R prev (l1 ++ l2).
Proof.
  induction l1 as [|x l1 IH]; intros prev H1 H2.
  - exact H2.
  - destruct H1 as [Hx H1]. split; [exact Hx|]. apply IH; assumption.
Qed.

Lemma chain_adjacent {A : Type} (R : A -> A -> Prop) (pre post : list A)
    (e1 e2 : A) :
  forall prev, chain R prev (pre ++ e1 :: e2 :: post) -> R e1 e2.
Proof.
  induction pre as [|x pre IH]; intros prev H.
  - destruct H as (_ & H & _). exact H.
  - destruct H as [_ H]. exact (IH x H).
Qed.

Section ReferenceShape.

Variable FURC_SHIFT : Z.
Variable bit : Z -> Z.

Local Abbreviation follows := (follows FURC_SHIFT).

(** A descend that finds a 1 finds it at a depth between 1 and the one it
    started with. *)
Lemma ref_descend_depth (fuel : nat) :
  forall t a d a1 d1 evs,
    1 <= d ->
    ref_descend bit fuel t a d = (Some (a1, d1), evs) ->
    1 <= d1 <= d.
Proof.
  induction fuel as [|fuel IH]; intros t a d a1 d1 evs Hd Href.
  - discriminate.
  - cbn [ref_descend] in Href.
    destruct (bit a =? 0).
    + destruct (d - 1 =? 0) eqn:E; [discriminate|]. apply Z.eqb_neq in E.
      destruct (ref_descend bit fuel t (d - 1) (d - 1)) as [r evs'] eqn:Erec.
      injection Href as -> <-.
      apply IH in Erec; lia.
    + injection Href as <- <- <-. lia.
Qed.

(** Where a descend that finds a 1 stops: at the place it started from, or in
    a lower column at its first position. *)
Lemma ref_descend_found (fuel : nat) :
  forall t a d a1 d1 evs,
    1 <= d <= a ->
    ref_descend bit fuel t a d = (Some (a1, d1), evs) ->
    1 <= d1 <= d /\ d1 <= a1 <= a /\
    ((a1 = a /\ d1 = d) \/ (a1 = d1 /\ d1 < d)).
Proof.
  induction fuel as [|fuel IH]; intros t a d a1 d1 evs Hd Href.
  - discriminate.
  - cbn [ref_descend] in Href.
    destruct (bit a =? 0).
    + destruct (d - 1 =? 0) eqn:E; [discriminate|]. apply Z.eqb_neq in E.
      destruct (ref_descend bit fuel t (d - 1) (d - 1)) as [r evs'] eqn:Erec.
      injection Href as -> <-.
      apply IH in Erec; [|lia]. lia.
    + injection Href as <- <- <-. lia.
Qed.

Lemma ref_build_position (cnt : nat) :
  forall t a d num a2 num2 evs,
    ref_build FURC_SHIFT bit cnt t a d num = (a2, num2, evs) ->
    a2 = a + Z.of_nat cnt * FURC_SHIFT.
Proof.
  induction cnt as [|cnt IH]; intros t a d num a2 num2 evs Href.
  - cbn in Href. injection Href as <- <- <-. lia.
  - cbn [ref_build] in Href.
    destruct (ref_build FURC_SHIFT bit cnt t (a + FURC_SHIFT) d
                (Z.lor (u32 (Z.shiftl num 1)) (bit a)))
      as [[a' num'] evs'] eqn:Erec.
    injection Href as <- <- <-. apply IH in Erec. lia.
Qed.

Lemma follows_after_zero (t d a : Z) (e2 : read_event) :
  bit a = 0 -> 1 < d ->
  ev_try e2 = t -> ev_phase e2 = Descend ->
  ev_depth e2 = d - 1 -> ev_idx e2 = d - 1 ->
  follows (Read t Descend d a (bit a)) e2.
Proof.
  intros Hb Hd Ht Hp Hde Hi. unfold follows, zero_descend. cbn.
  rewrite Hb. cbn. auto.
Qed.

Lemma follows_build_then_descend (prev : read_event) (t d a : Z) :
  (forall b, follows prev (Read t Build d a b)) ->
  forall b, follows prev (Read (t + 1) Descend d a b).
Proof.
  intros H b. specialize (H b). unfold follows in *.
  destruct (zero_descend prev).
  - destruct H as (_ & _ & Hp & _). discriminate.
  - cbn in *. destruct H as (Hi & Hd & [[_ Ht]|[Hp _]]); [|discriminate].
    split; [exact Hi|]. split; [exact Hd|]. right. split; [reflexivity|lia].
Qed.

Lemma ref_descend_chain (fuel : nat) :
  forall t a d prev r evs,
    1 <= d -> (Z.to_nat d <= fuel)%nat ->
    (forall b, follows prev (Read t Descend d a b)) ->
    ref_descend bit fuel t a d = (r, evs) ->
    chain follows prev evs /\
    match r with
    | Some (a1, d1) =>
        exists b, b <> 0 /\ last_of prev evs = Read t Descend d1 a1 b
    | None => True
    end.
Proof.
  induction fuel as [|fuel IH]; intros t a d prev r evs Hd Hfuel Hprev Href.
  - lia.
  - cbn [ref_descend] in Href.
    destruct (bit a =? 0) eqn:Eb.
    + apply Z.eqb_eq in Eb.
      destruct (d - 1 =? 0) eqn:E.
      * injection Href as <- <-. cbn. auto.
      * apply Z.eqb_neq in E.
        destruct (ref_descend bit fuel t (d - 1) (d - 1)) as [r' evs'] eqn:Erec.
        injection Href as <- <-.
        apply IH with (prev := Read t Descend d a (bit a)) in Erec
            as [Hchain Hlast]; [| lia | lia |].
        -- split; [split; [apply Hprev|exact Hchain]|]. exact Hlast.
        -- intros b. apply follows_after_zero; [exact Eb|lia|..]; reflexivity.
    + apply Z.eqb_neq in Eb. injection Href as <- <-. cbn.
      split; [auto|]. exists (bit a). auto.
Qed.

Lemma ref_build_chain (cnt : nat) :
  forall t a d num prev a2 num2 evs,
    (forall b, follows prev (Read t Build d a b)) ->
    ref_build FURC_SHIFT bit cnt t a d num = (a2, num2, evs) ->
    chain follows prev evs /\
    (forall b, follows (last_of prev evs) (Read t Build d a2 b)).
Proof.
  induction cnt as [|cnt IH]; intros t a d num prev a2 num2 evs Hprev Href.
  - cbn in Href. injection Href as <- <- <-. cbn. auto.
  - cbn [ref_build] in Href.
    destruct (ref_build FURC_SHIFT bit cnt t (a + FURC_SHIFT) d
                (Z.lor (u32 (Z.shiftl num 1)) (bit a)))
      as [[a' num'] evs'] eqn:Erec.
    injection Href as <- <- <-.
    apply IH with (prev := Read t Build d a (bit a)) in Erec as [Hchain Hlast].
    + split; [split; [apply Hprev|exact Hchain]|]. exact Hlast.
    + intros b. unfold follows, zero_descend. cbn. auto.
Qed.

Lemma ref_attempts_chain (n : nat) :
  forall m t a d prev v w evs,
    1 <= d ->
    (forall b, follows prev (Read t Descend d a b)) ->
    ref_attempts FURC_SHIFT bit n m t a d = (v, w, evs) ->
    chain follows prev evs.
Proof.
  induction n as [|n IH]; intros m t a d prev v w evs Hd Hprev Href.
  - cbn in Href. injection Href as <- <- <-. exact I.
  - cbn [ref_attempts] in Href.
    destruct (ref_descend bit (Z.to_nat d) t a d) as [found evs1] eqn:Edesc.
    pose proof Edesc as Hshape.
    apply ref_descend_chain with (prev := prev) in Hshape as [Hc1 Hlast1];
      [|lia|lia|exact Hprev].
    destruct found as [[a1 d1]|]; [|injection Href as <- <- <-; exact Hc1].
    destruct Hlast1 as (b1 & Hb1 & Hlast1).
    assert (Hd1 : 1 <= d1) by (apply ref_descend_depth in Edesc; lia).
    destruct (ref_build FURC_SHIFT bit (Z.to_nat (d1 - 1)) t
                (a1 + FURC_SHIFT) d1 1) as [[a3 num] evs2] eqn:Ebuild.
    apply ref_build_chain with (prev := last_of prev evs1) in Ebuild
        as [Hc2 Hlast2].
    2:{ intros b. rewrite Hlast1. unfold follows, zero_descend. cbn.
        destruct (b1 =? 0) eqn:E; [apply Z.eqb_eq in E; contradiction|].
        auto. }
    destruct (num <? m).
    + injection Href as <- <- <-. apply chain_app; assumption.
    + destruct (ref_attempts FURC_SHIFT bit n m (t + 1) a3 d1)
        as [[v' w'] evs3] eqn:Erec.
      injection Href as <- <- <-.
      apply chain_app; [exact Hc1|]. apply chain_app; [exact Hc2|].
      eapply IH; [exact Hd1| |exact Erec].
      apply follows_build_then_descend. exact Hlast2.
Qed.

End ReferenceShape.

(** ** What the reference walk reads, how much, and what it returns *)

Section ReferenceCount.

Variable FURC_SHIFT : Z.
Variable bit : Z -> Z.

(** An event of attempt [t0 .. t1 - 1], at a depth of [1 .. d], that reports
    the bit of its position. *)
Local Abbreviation sound t0 t1 d :=
  (fun e : read_event =>
     t0 <= ev_try e < t1 /\ 1 <= ev_depth e <= d /\
     ev_bit e = bit (ev_idx e)).

Lemma ref_descend_events (fuel : nat) :
  forall t a d r evs,
    1 <= d ->
    ref_descend bit fuel t a d = (r, evs) ->
    Forall (sound t (t + 1) d) evs.
Proof.
  induction fuel as [|fuel IH]; intros t a d r evs Hd Href.
  - injection Href as <- <-. constructor.
  - cbn [ref_descend] in Href.
    assert (He : sound t (t + 1) d (Read t Descend d a (bit a))).
    { cbn. lia. }
    destruct (bit a =? 0).
    + destruct (d - 1 =? 0) eqn:E.
      * injection Href as <- <-. repeat constructor; apply He.
      * apply Z.eqb_neq in E.
        destruct (ref_descend bit fuel t (d - 1) (d - 1)) as [r' evs'] eqn:Erec.
        injection Href as <- <-. constructor; [exact He|].
        apply IH in Erec; [|lia].
        eapply Forall_impl; [exact Erec|]. cbn. intros e. lia.
    + injection Href as <- <-. repeat constructor; apply He.
Qed.

Lemma ref_build_events (cnt : nat) :
  forall t a d num a2 num2 evs,
    1 <= d ->
    ref_build FURC_SHIFT bit cnt t a d num = (a2, num2, evs) ->
    Forall (sound t (t + 1) d) evs.
Proof.
  induction cnt as [|cnt IH]; intros t a d num a2 num2 evs Hd Href.
  - cbn in Href. injection Href as <- <- <-. constructor.
  - cbn [ref_build] in Href.
    destruct (ref_build FURC_SHIFT bit cnt t (a + FURC_SHIFT) d
                (Z.lor (u32 (Z.shiftl num 1)) (bit a)))
      as [[a' num'] evs'] eqn:Erec.
    injection Href as <- <- <-. constructor; [cbn; lia|].
    eapply IH; eassumption.
Qed.

Lemma ref_attempts_events (n : nat) :
  forall m t a d v w evs,
    1 <= d ->
    ref_attempts FURC_SHIFT bit n m t a d = (v, w, evs) ->
    Forall (sound t (t + Z.of_nat n) d) evs.
Proof.
  induction n as [|n IH]; intros m t a d v w evs Hd Href.
  - cbn in Href. injection Href as <- <- <-. constructor.
  - cbn [ref_attempts] in Href.
    destruct (ref_descend bit (Z.to_nat d) t a d) as [found evs1] eqn:Edesc.
    pose proof (ref_descend_events _ _ _ _ _ _ Hd Edesc) as H1.
    assert (H1' : Forall (sound t (t + Z.of_nat (S n)) d) evs1).
    { eapply Forall_impl; [exact H1|]. cbn. intros e. lia. }
    destruct found as [[a1 d1]|]; [|injection Href as <- <- <-; exact H1'].
    apply ref_descend_depth in Edesc; [|exact Hd].
    destruct (ref_build FURC_SHIFT bit (Z.to_nat (d1 - 1)) t
                (a1 + FURC_SHIFT) d1 1) as [[a3 num] evs2] eqn:Ebuild.
    apply ref_build_events in Ebuild; [|lia].
    assert (H2' : Forall (sound t (t + Z.of_nat (S n)) d) evs2).
    { eapply Forall_impl; [exact Ebuild|]. cbn. intros e. lia. }
    destruct (num <? m).
    + injection Href as <- <- <-. apply Forall_app. auto.
    + destruct (ref_attempts FURC_SHIFT bit n m (t + 1) a3 d1)
        as [[v' w'] evs3] eqn:Erec.
      injection Href as <- <- <-.
      apply IH in Erec; [|lia].
      apply Forall_app. split; [exact H1'|].
      apply Forall_app. split; [exact H2'|].
      eapply Forall_impl; [exact Erec|]. cbn. intros e. lia.
Qed.

(** A descend from depth [d] makes one read per depth it visits. *)
Lemma ref_descend_length (fuel : nat) :
  forall t a d r evs,
    1 <= d -> (Z.to_nat d <= fuel)%nat ->
    ref_descend bit fuel t a d = (r, evs) ->
    Z.of_nat (length evs)
    = match r with
      | Some (_, d1) => d - d1 + 1
      | None => d
      end.
Proof.
  induction fuel as [|fuel IH]; intros t a d r evs Hd Hfuel Href.
  - lia.
  - cbn [ref_descend] in Href.
    destruct (bit a =? 0).
    + destruct (d - 1 =? 0) eqn:E.
      * apply Z.eqb_eq in E. injection Href as <- <-. cbn. lia.
      * apply Z.eqb_neq in E.
        destruct (ref_descend bit fuel t (d - 1) (d - 1)) as [r' evs'] eqn:Erec.
        injection Href as <- <-.
        apply IH in Erec; [|lia|lia].
        cbn [length]. rewrite Nat2Z.inj_succ, Erec.
        destruct r' as [[a1 d1]|]; lia.
    + injection Href as <- <-. cbn. lia.
Qed.

Lemma ref_build_length (cnt : nat) :
  forall t a d num a2 num2 evs,
    ref_build FURC_SHIFT bit cnt t a d num = (a2, num2, evs) ->
    length evs = cnt.
Proof.
  induction cnt as [|cnt IH]; intros t a d num a2 num2 evs Href.
  - cbn in Href. injection Href as <- <- <-. reflexivity.
  - cbn [ref_build] in Href.
    destruct (ref_build FURC_SHIFT bit cnt t (a + FURC_SHIFT) d
                (Z.lor (u32 (Z.shiftl num 1)) (bit a)))
      as [[a' num'] evs'] eqn:Erec.
    injection Href as <- <- <-. cbn [length]. f_equal. eapply IH; eassumption.
Qed.

(** An attempt that starts at depth [d] makes [d] reads, and the depth never
    grows: [n] attempts make at most [n * d]. *)
Lemma ref_attempts_length (n : nat) :
  forall m t a d v w evs,
    1 <= d ->
    ref_attempts FURC_SHIFT bit n m t a d = (v, w, evs) ->
    Z.of_nat (length evs) <= Z.of_nat n * d.
Proof.
  induction n as [|n IH]; intros m t a d v w evs Hd Href.
  - cbn in Href. injection Href as <- <- <-. cbn. lia.
  - cbn [ref_attempts] in Href.
    destruct (ref_descend bit (Z.to_nat d) t a d) as [found evs1] eqn:Edesc.
    pose proof (ref_descend_length (Z.to_nat d) t a d found evs1 Hd
                  (Nat.le_refl _) Edesc) as Hl1.
    destruct found as [[a1 d1]|]; [|injection Href as <- <- <-; nia].
    apply ref_descend_depth in Edesc; [|exact Hd].
    destruct (ref_build FURC_SHIFT bit (Z.to_nat (d1 - 1)) t
                (a1 + FURC_SHIFT) d1 1) as [[a3 num] evs2] eqn:Ebuild.
    apply ref_build_length in Ebuild.
    destruct (num <? m).
    + injection Href as <- <- <-. rewrite length_app. nia.
    + destruct (ref_attempts FURC_SHIFT bit n m (t + 1) a3 d1)
        as [[v' w'] evs3] eqn:Erec.
      injection Href as <- <- <-.
      apply IH in Erec; [|lia].
      rewrite !length_app. nia.
Qed.

Lemma ref_build_nonneg (cnt : nat) :
  forall t a d num a2 num2 evs,
    (forall p, 0 <= bit p) -> 0 <= num ->
    ref_build FURC_SHIFT bit cnt t a d num = (a2, num2, evs) ->
    0 <= num2.
Proof.
  induction cnt as [|cnt IH]; intros t a d num a2 num2 evs Hbit Hnum Href.
  - cbn in Href. injection Href as <- <- <-. exact Hnum.
  - cbn [ref_build] in Href.
    destruct (ref_build FURC_SHIFT bit cnt t (a + FURC_SHIFT) d
                (Z.lor (u32 (Z.shiftl num 1)) (bit a)))
      as [[a' num'] evs'] eqn:Erec.
    injection Href as <- <- <-.
    eapply IH; [exact Hbit| |exact Erec].
    apply Z.lor_nonneg. split; [|apply Hbit].
    unfold u32. apply Z.mod_pos_bound. lia.
Qed.

(** The value is a bucket of a pool of [m], it is 0 on the two returns that
    give up, and the walk proper never leaves by the return of line 152. *)
Lemma ref_attempts_value (n : nat) :
  forall m t a d v w evs,
    (forall p, 0 <= bit p) -> 0 < m ->
    ref_attempts FURC_SHIFT bit n m t a d = (v, w, evs) ->
    0 <= v < m /\ (w <> Accepted -> v = 0) /\ w <> Trivial.
Proof.
  induction n as [|n IH]; intros m t a d v w evs Hbit Hm Href.
  - cbn in Href. injection Href as <- <- <-.
    split; [lia|]. split; [reflexivity|discriminate].
  - cbn [ref_attempts] in Href.
    destruct (ref_descend bit (Z.to_nat d) t a d) as [found evs1] eqn:Edesc.
    destruct found as [[a1 d1]|].
    2:{ injection Href as <- <- <-.
        split; [lia|]. split; [reflexivity|discriminate]. }
    destruct (ref_build FURC_SHIFT bit (Z.to_nat (d1 - 1)) t
                (a1 + FURC_SHIFT) d1 1) as [[a3 num] evs2] eqn:Ebuild.
    apply ref_build_nonneg in Ebuild; [|exact Hbit|lia].
    destruct (num <? m) eqn:E.
    + apply Z.ltb_lt in E. injection Href as <- <- <-.
      split; [lia|]. split; [congruence|discriminate].
    + destruct (ref_attempts FURC_SHIFT bit n m (t + 1) a3 d1)
        as [[v' w'] evs3] eqn:Erec.
      injection Href as <- <- <-.
      eapply IH; eassumption.
Qed.

(** A descend that returns by line 163 has read a 0 at depth 1 last. *)
Lemma ref_descend_none (fuel : nat) :
  forall t a d evs,
    1 <= d -> (Z.to_nat d <= fuel)%nat ->
    ref_descend bit fuel t a d = (None, evs) ->
    exists pre e, evs = pre ++ [e] /\
                  ev_phase e = Descend /\ ev_bit e = 0 /\ ev_depth e = 1.
Proof.
  induction fuel as [|fuel IH]; intros t a d evs Hd Hfuel Href.
  - lia.
  - cbn [ref_descend] in Href.
    destruct (bit a =? 0) eqn:Eb; [|discriminate].
    apply Z.eqb_eq in Eb.
    destruct (d - 1 =? 0) eqn:E.
    + apply Z.eqb_eq in E. injection Href as <-.
      exists [], (Read t Descend d a (bit a)). cbn.
      split; [reflexivity|]. split; [reflexivity|]. split; [exact Eb|lia].
    + apply Z.eqb_neq in E.
      destruct (ref_descend bit fuel t (d - 1) (d - 1)) as [r' evs'] eqn:Erec.
      injection Href as -> <-.
      apply IH in Erec as (pre & e & -> & He); [|lia|lia].
      exists (Read t Descend d a (bit a) :: pre), e. split; [reflexivity|exact He].
Qed.

(** A descend starts with a read of its attempt. *)
Lemma ref_descend_head (fuel : nat) (t a d : Z) r evs :
  ref_descend bit (S fuel) t a d = (r, evs) ->
  exists rest, evs = Read t Descend d a (bit a) :: rest.
Proof.
  cbn [ref_descend]. intros Href.
  destruct (bit a =? 0).
  - destruct (d - 1 =? 0).
    + injection Href as <- <-. eauto.
    + destruct (ref_descend bit fuel t (d - 1) (d - 1)) as [r' evs'].
      injection Href as <- <-. eauto.
  - injection Href as <- <-. eauto.
Qed.

(** The return of line 163 follows a 0 read at depth 1: [--d] made 0. *)
Lemma ref_attempts_depth_zero (n : nat) :
  forall m t a d v evs,
    1 <= d ->
    ref_attempts FURC_SHIFT bit n m t a d = (v, DepthZero, evs) ->
    exists pre e, evs = pre ++ [e] /\
                  ev_phase e = Descend /\ ev_bit e = 0 /\ ev_depth e = 1.
Proof.
  induction n as [|n IH]; intros m t a d v evs Hd Href.
  - discriminate.
  - cbn [ref_attempts] in Href.
    destruct (ref_descend bit (Z.to_nat d) t a d) as [found evs1] eqn:Edesc.
    destruct found as [[a1 d1]|].
    + apply ref_descend_depth in Edesc; [|exact Hd].
      destruct (ref_build FURC_SHIFT bit (Z.to_nat (d1 - 1)) t
                  (a1 + FURC_SHIFT) d1 1) as [[a3 num] evs2].
      destruct (num <? m); [discriminate|].
      destruct (ref_attempts FURC_SHIFT bit n m (t + 1) a3 d1)
        as [[v' w'] evs3] eqn:Erec.
      injection Href as <- -> <-.
      apply IH in Erec as (pre & e & -> & He); [|lia].
      exists (evs1 ++ evs2 ++ pre), e. split; [|exact He].
      now rewrite <- !app_assoc.
    + injection Href as <- <-.
      eapply ref_descend_none; [exact Hd| |exact Edesc]. lia.
Qed.

(** The return of line 179 follows [n] attempts, each of which read. *)
Lemma ref_attempts_gave_up (n : nat) :
  forall m t a d v evs,
    1 <= d ->
    ref_attempts FURC_SHIFT bit n m t a d = (v, GaveUp, evs) ->
    forall t', t <= t' < t + Z.of_nat n ->
               exists e, In e evs /\ ev_try e = t' /\ ev_phase e = Descend.
Proof.
  induction n as [|n IH]; intros m t a d v evs Hd Href t' Ht'.
  - lia.
  - cbn [ref_attempts] in Href.
    destruct (ref_descend bit (Z.to_nat d) t a d) as [found evs1] eqn:Edesc.
    destruct found as [[a1 d1]|]; [|discriminate].
    pose proof Edesc as Hhead.
    replace (Z.to_nat d) with (S (Z.to_nat (d - 1))) in Hhead by lia.
    apply ref_descend_head in Hhead as (rest & ->).
    apply ref_descend_depth in Edesc; [|exact Hd].
    destruct (ref_build FURC_SHIFT bit (Z.to_nat (d1 - 1)) t
                (a1 + FURC_SHIFT) d1 1) as [[a3 num] evs2].
    destruct (num <? m); [discriminate|].
    destruct (ref_attempts FURC_SHIFT bit n m (t + 1) a3 d1)
      as [[v' w'] evs3] eqn:Erec.
    injection Href as <- -> <-.
    destruct (Z.eq_dec t' t) as [->|Hne].
    + eexists. split; [left; reflexivity|]. cbn. auto.
    + destruct (IH m (t + 1) a3 d1 v' evs3 ltac:(lia) Erec t' ltac:(lia))
        as (e & Hin & He).
      exists e. split; [|exact He].
      right. apply in_or_app. right. apply in_or_app. right. exact Hin.
Qed.

End ReferenceCount.

(** ** No position is read twice *)

Section Positions.

Variable FURC_SHIFT : Z.
Hypothesis shift_pos : 0 < FURC_SHIFT.

Local Abbreviation follows := (follows FURC_SHIFT).
Local Abbreviation placed := (placed FURC_SHIFT).

Lemma column_low (d : Z) : 1 <= d <= FURC_SHIFT -> column FURC_SHIFT d = d.
Proof. intros Hd. unfold column. rewrite Z.mod_small by lia. lia. Qed.

Lemma column_le (p : Z) : 1 <= p -> column FURC_SHIFT p <= p.
Proof using shift_pos.
  intros Hp. unfold column.
  pose proof (Z.mod_le (p - 1) FURC_SHIFT ltac:(lia) shift_pos). lia.
Qed.

Lemma column_stride (p : Z) :
  column FURC_SHIFT (p + FURC_SHIFT) = column FURC_SHIFT p.
Proof using shift_pos.
  unfold column.
  replace (p + FURC_SHIFT - 1) with (p - 1 + 1 * FURC_SHIFT) by lia.
  rewrite Z.mod_add by lia. reflexivity.
Qed.

Lemma follows_placed (e1 e2 : read_event) :
  placed e1 -> follows e1 e2 -> placed e2.
Proof using shift_pos.
  unfold placed, follows. intros (Hd & Hi & Hc) H.
  destruct (zero_descend e1).
  - destruct H as (H1 & _ & _ & Hd2 & Hi2). rewrite Hd2, Hi2.
    split; [lia|]. split; [lia|]. apply column_low. lia.
  - destruct H as (Hi2 & Hd2 & _). rewrite Hd2, Hi2, column_stride.
    split; [lia|]. split; [lia|exact Hc].
Qed.

Lemma follows_later (e1 e2 : read_event) : follows e1 e2 -> later e1 e2.
Proof using shift_pos.
  unfold follows, later. intros H.
  destruct (zero_descend e1).
  - destruct H as (_ & _ & _ & Hd2 & _). lia.
  - destruct H as (Hi2 & Hd2 & _). lia.
Qed.

Lemma chain_later (l : list read_event) :
  forall e, placed e -> chain follows e l ->
            Forall (fun x => placed x /\ later e x) l.
Proof using shift_pos.
  induction l as [|e2 l IH]; intros e Hp Hc.
  - constructor.
  - destruct Hc as [Hf Hc].
    pose proof (follows_placed _ _ Hp Hf) as Hp2.
    pose proof (follows_later _ _ Hf) as Hl2.
    constructor; [auto|].
    eapply Forall_impl; [exact (IH e2 Hp2 Hc)|].
    cbn. intros x [Hpx Hlx]. split; [exact Hpx|].
    unfold later in *. lia.
Qed.

(** Positions of one chain differ: a later read is in a lower column or
    further in the same one. *)
Lemma chain_NoDup (l : list read_event) :
  forall e, placed e -> chain follows e l ->
            NoDup (map ev_idx (e :: l)).
Proof using shift_pos.
  induction l as [|e2 l IH]; intros e Hp Hc.
  - cbn. constructor; [|constructor]. intros H. inversion H.
  - pose proof (chain_later _ _ Hp Hc) as Hall.
    destruct Hc as [Hf Hc].
    cbn [map]. constructor.
    + intros Hin. change (ev_idx e2 :: map ev_idx l) with (map ev_idx (e2 :: l)) in Hin.
      apply list_elem_of_In, in_map_iff in Hin as (x & Hx & Hin).
      rewrite Forall_forall in Hall.
      destruct (Hall x ltac:(apply list_elem_of_In; exact Hin)) as [Hpx Hlx].
      destruct Hp as (_ & _ & Hce). destruct Hpx as (_ & _ & Hcx).
      unfold later in Hlx. rewrite <- Hce, <- Hcx, Hx in Hlx. lia.
    + apply IH; [|exact Hc]. eapply follows_placed; eassumption.
Qed.

End Positions.

(** ** The walk computes the reference walk on the stream of the key *)

Lemma u32_small (x : Z) : 0 <= x < 2 ^ 32 -> u32 x = x.
Proof. intros H. unfold u32. apply Z.mod_small. exact H. Qed.

Section WalkRefinement.

Variable FURC_SHIFT : Z.
Variable byte_order : endianness.
Variable key : list byte.

Local Abbreviation cache_inv := (cache_inv byte_order key).
Local Abbreviation bit := (stream_bit byte_order key).

Lemma descend_refines (fuel : nat) :
  forall t a d c r evs,
    cache_inv c ->
    1 <= d <= a -> a < 64 * Z.of_nat (length (hash c)) -> a < 2 ^ 32 ->
    (Z.to_nat d <= fuel)%nat ->
    ref_descend bit fuel t a d = (r, evs) ->
    exists c', descend byte_order fuel key t a d c = Done (r, c', evs) /\
               cache_inv c' /\ length (hash c') = length (hash c).
Proof.
  induction fuel as [|fuel IH]; intros t a d c r evs Hinv Hd Hfit Hw Hfuel Href.
  - lia.
  - cbn [ref_descend] in Href. cbn [descend].
    destruct (furc_get_bit_spec byte_order key a c Hinv ltac:(lia) Hfit)
      as (c1 & Hrun & Hinv1 & Hl1).
    rewrite Hrun, bind_Done. cbn beta iota.
    destruct (bit a =? 0).
    + rewrite u32_small by lia.
      destruct (d - 1 =? 0) eqn:E.
      * injection Href as <- <-. exists c1. auto.
      * apply Z.eqb_neq in E.
        destruct (ref_descend bit fuel t (d - 1) (d - 1)) as [r' evs'] eqn:Erec.
        injection Href as <- <-.
        destruct (IH t (d - 1) (d - 1) c1 r' evs' Hinv1) as (c2 & Hrun2 & Hinv2 & Hl2);
          [lia|rewrite Hl1; lia|lia|lia|exact Erec|].
        rewrite Hrun2, bind_Done. exists c2. split; [reflexivity|].
        split; [exact Hinv2|congruence].
    + injection Href as <- <-. exists c1. auto.
Qed.

Lemma build_refines (cnt : nat) :
  forall t a d num c a2 num2 evs,
    cache_inv c -> 0 <= a -> 0 < FURC_SHIFT ->
    a + Z.of_nat cnt * FURC_SHIFT <= 64 * Z.of_nat (length (hash c)) ->
    a + Z.of_nat cnt * FURC_SHIFT < 2 ^ 32 ->
    ref_build FURC_SHIFT bit cnt t a d num = (a2, num2, evs) ->
    exists c', build FURC_SHIFT byte_order cnt key t a d num c
               = Done (a2, num2, c', evs) /\
               cache_inv c' /\ length (hash c') = length (hash c).
Proof.
  induction cnt as [|cnt IH]; intros t a d num c a2 num2 evs Hinv Ha Hs Hfit Hw Href.
  - cbn in Href. injection Href as <- <- <-. exists c. auto.
  - cbn [ref_build] in Href. cbn [build].
    destruct (furc_get_bit_spec byte_order key a c Hinv Ha ltac:(nia))
      as (c1 & Hrun & Hinv1 & Hl1).
    rewrite Hrun, bind_Done. cbn beta iota.
    rewrite (u32_small (a + FURC_SHIFT)) by nia.
    destruct (ref_build FURC_SHIFT bit cnt t (a + FURC_SHIFT) d
                (Z.lor (u32 (Z.shiftl num 1)) (bit a)))
      as [[a' num'] evs'] eqn:Erec.
    injection Href as <- <- <-.
    destruct (IH t (a + FURC_SHIFT) d (Z.lor (u32 (Z.shiftl num 1)) (bit a))
                c1 a' num' evs' Hinv1)
      as (c2 & Hrun2 & Hinv2 & Hl2); [lia|lia|rewrite Hl1; lia|lia|exact Erec|].
    rewrite Hrun2, bind_Done. exists c2. split; [reflexivity|].
    split; [exact Hinv2|congruence].
Qed.

Lemma attempts_refines (n : nat) :
  forall m t a d c v w evs,
    cache_inv c -> 1 <= d <= a -> 0 < FURC_SHIFT ->
    a + Z.of_nat n * d * FURC_SHIFT <= 64 * Z.of_nat (length (hash c)) ->
    a + Z.of_nat n * d * FURC_SHIFT < 2 ^ 32 ->
    ref_attempts FURC_SHIFT bit n m t a d = (v, w, evs) ->
    exists c', attempts FURC_SHIFT byte_order n key m t a d c
               = Done (Walk v w c' evs) /\
               cache_inv c' /\ length (hash c') = length (hash c).
Proof.
  induction n as [|n IH]; intros m t a d c v w evs Hinv Hd Hs Hfit Hw Href.
  - cbn in Href. injection Href as <- <- <-. exists c. auto.
  - cbn [ref_attempts] in Href. cbn [attempts].
    assert (Hnd : 0 <= Z.of_nat n * d * FURC_SHIFT) by nia.
    assert (Hstep : d * FURC_SHIFT >= 1) by nia.
    assert (Hsplit : Z.of_nat (S n) * d * FURC_SHIFT
                     = Z.of_nat n * d * FURC_SHIFT + d * FURC_SHIFT) by lia.
    rewrite (u32_small (d - 1)) by lia.
    replace (S (Z.to_nat (d - 1))) with (Z.to_nat d) by lia.
    destruct (ref_descend bit (Z.to_nat d) t a d) as [found evs1] eqn:Edesc.
    destruct (descend_refines (Z.to_nat d) t a d c found evs1 Hinv)
      as (c1 & Hrun1 & Hinv1 & Hl1); [lia|lia|lia|lia|exact Edesc|].
    rewrite Hrun1, bind_Done. cbn beta iota.
    destruct found as [[a1 d1]|].
    + apply ref_descend_found in Edesc as (Hd1 & Ha1 & _); [|lia].
      assert (Hd1s : d1 * FURC_SHIFT <= d * FURC_SHIFT) by nia.
      rewrite (u32_small (d1 - 1)) by lia.
      rewrite (u32_small (a1 + FURC_SHIFT)) by nia.
      destruct (ref_build FURC_SHIFT bit (Z.to_nat (d1 - 1)) t
                  (a1 + FURC_SHIFT) d1 1) as [[a3 num] evs2] eqn:Ebuild.
      assert (Hcnt : Z.of_nat (Z.to_nat (d1 - 1)) * FURC_SHIFT
                     = d1 * FURC_SHIFT - FURC_SHIFT) by nia.
      destruct (build_refines (Z.to_nat (d1 - 1)) t (a1 + FURC_SHIFT) d1 1 c1
                  a3 num evs2 Hinv1)
        as (c2 & Hrun2 & Hinv2 & Hl2); [lia|lia|rewrite Hl1; lia|lia|exact Ebuild|].
      rewrite Hrun2, bind_Done. cbn beta iota.
      apply ref_build_position in Ebuild.
      destruct (num <? m).
      * injection Href as <- <- <-. exists c2. split; [reflexivity|].
        split; [exact Hinv2|congruence].
      * destruct (ref_attempts FURC_SHIFT bit n m (t + 1) a3 d1)
          as [[v' w'] evs3] eqn:Erec.
        injection Href as <- <- <-.
        assert (Hn1 : Z.of_nat n * d1 * FURC_SHIFT <= Z.of_nat n * d * FURC_SHIFT)
          by nia.
        destruct (IH m (t + 1) a3 d1 c2 v' w' evs3 Hinv2)
          as (c3 & Hrun3 & Hinv3 & Hl3);
          [lia|lia|rewrite Hl2, Hl1; lia|lia|exact Erec|].
        rewrite Hrun3, bind_Done. cbn [value why final reads].
        exists c3. split; [reflexivity|]. split; [exact Hinv3|congruence].
    + injection Href as <- <- <-. exists c1. auto.
Qed.

End WalkRefinement.

(** ** The whole walk *)

Lemma depth_loop_spec (fuel : nat) :
  forall m d,
    1 < m -> 0 <= d -> (d = 0 \/ 2 ^ (d - 1) < m) ->
    m <= 2 ^ (d + Z.of_nat fuel - 1) ->
    depth_loop fuel m d = Done (Z.log2_up m).
Proof.
  induction fuel as [|fuel IH]; intros m d Hm Hd Hlow Hhigh.
  - exfalso. destruct Hlow as [->|Hlow].
    + cbn in Hhigh. change (2 ^ (-1)) with 0 in Hhigh. lia.
    + replace (d + Z.of_nat 0 - 1) with (d - 1) in Hhigh by lia. lia.
  - cbn [depth_loop]. rewrite Z.shiftl_1_l.
    destruct (Z.gtb_spec m (2 ^ d)) as [Hgt|Hle].
    + apply IH; [exact Hm|lia| |].
      * right. replace (d + 1 - 1) with d by lia. exact Hgt.
      * replace (d + 1 + Z.of_nat fuel - 1) with (d + Z.of_nat (S fuel) - 1)
          by lia. exact Hhigh.
    + f_equal. symmetry.
      destruct Hlow as [->|Hlow]; [cbn in Hle; lia|].
      apply Z.log2_up_unique.
      * destruct (Z.eq_dec d 0) as [->|]; [cbn in Hle; lia|lia].
      * replace (Z.pred d) with (d - 1) by lia. lia.
Qed.

Lemma furc_maximum_pool_size_pow (FURC_SHIFT : Z) :
  0 <= FURC_SHIFT < 32 -> furc_maximum_pool_size FURC_SHIFT = 2 ^ FURC_SHIFT.
Proof.
  intros Hs. unfold furc_maximum_pool_size. rewrite Z.shiftl_1_l.
  apply u32_small. split; [apply Z.pow_nonneg; lia|].
  apply Z.pow_lt_mono_r; lia.
Qed.

(** The depth of a pool of [m]: the least [d] with [m <= 2 ^ d]. *)
Lemma depth_of_pool (FURC_SHIFT m : Z) :
  0 < FURC_SHIFT < 32 -> 1 < m <= furc_maximum_pool_size FURC_SHIFT ->
  depth_loop 64 m 0 = Done (Z.log2_up m) /\ 1 <= Z.log2_up m <= FURC_SHIFT.
Proof.
  intros Hs Hm. rewrite furc_maximum_pool_size_pow in Hm by lia.
  split.
  - apply depth_loop_spec; [lia|lia|auto|].
    change (0 + Z.of_nat 64 - 1) with 63.
    assert (2 ^ FURC_SHIFT <= 2 ^ 63) by (apply Z.pow_le_mono_r; lia). lia.
  - pose proof (Z.log2_up_pos m ltac:(lia)).
    pose proof (proj1 (Z.log2_up_le_pow2 m FURC_SHIFT ltac:(lia)) ltac:(lia)).
    lia.
Qed.

Lemma stream_bit_range (e : endianness) (key : list byte) (i : Z) :
  0 <= stream_bit e key i <= 1.
Proof. unfold stream_bit. destruct (Z.testbit _ _); cbn; lia. Qed.

Section WholeWalk.

Variables FURC_SHIFT FURC_MAX_TRIES : Z.
Variable byte_order : endianness.
Variable key : list byte.

Local Abbreviation bit := (stream_bit byte_order key).
Local Abbreviation walk_of m h := (furc_walk FURC_SHIFT FURC_MAX_TRIES byte_order key m h).
Local Abbreviation ref_of m :=
  (ref_attempts FURC_SHIFT bit (Z.to_nat FURC_MAX_TRIES) m 0
     (Z.log2_up m) (Z.log2_up m)).

(** On a pool of more than one bucket, and an array that is large enough,
    the walk returns what the reference walk computes on the stream of the
    key, whatever the array held. *)
Lemma furc_walk_refines (m : Z) (h : list (option Z)) :
  params_ok FURC_SHIFT FURC_MAX_TRIES ->
  cache_fits FURC_SHIFT FURC_MAX_TRIES (length h) ->
  1 < m <= furc_maximum_pool_size FURC_SHIFT ->
  exists c',
    walk_of m h
    = Done (Walk (ref_of m).1.1 (ref_of m).1.2 c' (ref_of m).2) /\
    cache_inv byte_order key c' /\ length (hash c') = length h.
Proof.
  intros (Hs & Hn & Hfar) Hfit Hm. unfold farthest, cache_fits, farthest in *.
  destruct (depth_of_pool FURC_SHIFT m Hs Hm) as [Hdepth Hd].
  unfold furc_walk.
  destruct (Z.gtb_spec m (furc_maximum_pool_size FURC_SHIFT)) as [Hgt|_];
    [lia|].
  destruct (Z.leb_spec m 1) as [Hle|_]; [lia|].
  destruct (reset_spec byte_order key 0 h None) as [Hreset Hinv].
  rewrite Hreset, bind_Done. cbn beta iota. rewrite Hdepth, bind_Done.
  destruct (ref_of m) as [[v w] evs] eqn:Eref. cbn [fst snd].
  set (d := Z.log2_up m) in *.
  assert (Hsq : d + Z.of_nat (Z.to_nat FURC_MAX_TRIES) * d * FURC_SHIFT
                <= FURC_SHIFT + FURC_MAX_TRIES * FURC_SHIFT * FURC_SHIFT).
  { rewrite Z2Nat.id by lia. nia. }
  destruct (attempts_refines FURC_SHIFT byte_order key (Z.to_nat FURC_MAX_TRIES)
              m 0 d d (Cache h (Some (-1))) v w evs Hinv)
    as (c' & Hrun & Hinv' & Hlen); [lia|lia|cbn [hash]; lia|lia|exact Eref|].
  exists c'. auto.
Qed.

(** The log of the reference walk from the first position is one chain that
    starts in column [d]. *)
Lemma ref_walk_chain (m : Z) :
  0 < FURC_SHIFT -> 1 <= Z.log2_up m <= FURC_SHIFT ->
  match (ref_of m).2 with
  | [] => True
  | e :: rest => placed FURC_SHIFT e /\ chain (follows FURC_SHIFT) e rest
  end.
Proof.
  intros Hs Hd.
  destruct (ref_of m) as [[v w] evs] eqn:Eref. cbn [snd].
  set (d := Z.log2_up m) in *.
  apply ref_attempts_chain
    with (prev := Read (-1) Build d (d - FURC_SHIFT) 0) in Eref; [|lia|].
  - destruct evs as [|e rest]; [exact I|].
    destruct Eref as [Hf Hc]. split; [|exact Hc].
    unfold follows, zero_descend in Hf. cbn in Hf.
    destruct Hf as (Hi & Hde & _). unfold placed. rewrite Hi, Hde.
    replace (d - FURC_SHIFT + FURC_SHIFT) with d by lia.
    split; [lia|]. split; [lia|]. apply column_low. lia.
  - intros b. unfold follows, zero_descend. cbn.
    split; [lia|]. split; [reflexivity|]. right. split; [reflexivity|lia].
Qed.

End WholeWalk.

(** ** Termination of the descend loop *)

Section NoFuelFault.

Variable FURC_SHIFT : Z.
Variable byte_order : endianness.

Lemma fill_fuel (key : list byte) (cnt : nat) :
  forall n h, fill byte_order key cnt n h <> Fault OutOfFuel.
Proof.
  induction cnt as [|cnt IH]; intros n h; cbn [fill]; [discriminate|].
  destruct (n =? 0).
  - rewrite bind_Done. unfold store. destruct (_ && _); [|discriminate].
    rewrite bind_Done. apply IH.
  - unfold load. destruct (n - 1 <? 0); [discriminate|].
    destruct (h !! Z.to_nat (n - 1)) as [[v|]|]; try discriminate.
    rewrite !bind_Done. unfold store. destruct (_ && _); [|discriminate].
    rewrite bind_Done. apply IH.
Qed.

Lemma furc_get_bit_fuel key (idx : Z) (c : cache) :
  furc_get_bit byte_order key idx c <> Fault OutOfFuel.
Proof.
  unfold furc_get_bit. destruct key as [k|]; [|discriminate].
  destruct (old_ord c) as [o|]; [|discriminate]. rewrite bind_Done.
  destruct (o <? Z.shiftr idx 6).
  - destruct (fill byte_order k _ _ _) as [h'|f] eqn:E.
    + rewrite !bind_Done. unfold load. cbn [hash].
      destruct (_ <? 0); [discriminate|].
      destruct (h' !! _) as [[v|]|]; discriminate.
    + cbn. intros H. injection H as ->. exact (fill_fuel _ _ _ _ E).
  - rewrite bind_Done. unfold load.
    destruct (_ <? 0); [discriminate|].
    destruct (hash c !! _) as [[v|]|]; discriminate.
Qed.

(** With [u32 (d - 1) + 1] turns of fuel the descend loop does not run out,
    from any depth of [uint32_t] and any cache: each turn that stays in the
    loop lowers [u32 (d - 1)]. *)
Lemma descend_fuel (fuel : nat) :
  forall key t a d c,
    0 <= d < 2 ^ 32 -> u32 (d - 1) < Z.of_nat fuel ->
    descend byte_order fuel key t a d c <> Fault OutOfFuel.
Proof.
  induction fuel as [|fuel IH]; intros key t a d c Hd Hfuel.
  - unfold u32 in Hfuel. pose proof (Z.mod_pos_bound (d - 1) (2 ^ 32)). lia.
  - cbn [descend].
    destruct (furc_get_bit byte_order (Some key) a c) as [[b c1]|f] eqn:E.
    + rewrite bind_Done. cbn beta iota.
      destruct (b =? 0); [|discriminate].
      destruct (u32 (d - 1) =? 0) eqn:E0; [discriminate|].
      apply Z.eqb_neq in E0.
      assert (Hr : 0 <= u32 (d - 1) < 2 ^ 32)
        by (unfold u32; apply Z.mod_pos_bound; lia).
      specialize (IH key t (u32 (d - 1)) (u32 (d - 1)) c1 Hr).
      rewrite (u32_small (u32 (d - 1) - 1)) in IH by lia.
      destruct (descend byte_order fuel key t _ _ c1) as [[[r c2] evs]|f].
      * discriminate.
      * cbn. intros H. injection H as ->. apply IH; [lia|reflexivity].
    + cbn. intros H. injection H as ->.
      exact (furc_get_bit_fuel _ _ _ E).
Qed.

End NoFuelFault.

(** * The properties of the specification *)

(** ** The bit-stream generator *)

(** C2. After the call with the null key, a sequence of requests for one key
    at non-decreasing bit indices inside the array returns, for each index
    [i], bit [i mod 64] of block [i / 64] of the stream of the key, block 0
    being [murmur_hash_64A(key, len, SEED)] and block [n + 1] being
    [murmur_rehash_64A] of block [n]. *)
Theorem bitstream_nondecreasing (byte_order : endianness) (key : list byte)
    (h : list (option Z)) (o : option Z) (idxs : list Z) :
  Sorted Z.le idxs ->
  Forall (fun i => 0 <= i < 64 * Z.of_nat (length h)) idxs ->
  (exists c0 c',
     furc_get_bit byte_order None 0 (Cache h o) = Done (0, c0) /\
     get_bits byte_order key idxs c0
     = Done (map (fun i =>
                    Z.b2z (Z.testbit (block byte_order key (Z.to_nat (i / 64)))
                             (i mod 64)))
               idxs, c')) /\
  block byte_order key 0 = murmur_hash_64A byte_order key SEED /\
  (forall n, block byte_order key (S n)
             = murmur_rehash_64A (block byte_order key n)).
Proof.
  intros _ Hall. split; [|split; reflexivity].
  destruct (reset_spec byte_order key 0 h o) as [Hreset Hinv].
  destruct (get_bits_spec byte_order key idxs _ Hinv Hall) as (c' & Hrun & _).
  exists (Cache h (Some (-1))), c'. split; [exact Hreset|exact Hrun].
Qed.

Lemma bitstream_nondecreasing_witness :
  exists c0 c',
    furc_get_bit LittleEndian None 0 (Cache (replicate 1024 None) None)
    = Done (0, c0) /\
    get_bits LittleEndian ["c"%byte] [3; 26; 49; 72] c0
    = Done (map (fun i =>
                   Z.b2z (Z.testbit
                            (block LittleEndian ["c"%byte] (Z.to_nat (i / 64)))
                            (i mod 64)))
              [3; 26; 49; 72], c').
Proof.
  apply (bitstream_nondecreasing LittleEndian ["c"%byte]
           (replicate 1024 None) None [3; 26; 49; 72]).
  - repeat constructor; by_computation.
  - repeat constructor; by_computation.
Defined.

(** ** The decision-tree walk *)

Section Walk.

Variables FURC_SHIFT FURC_MAX_TRIES FURC_CACHE_SIZE : Z.
Variable byte_order : endianness.

Local Abbreviation bit key := (stream_bit byte_order key).
Local Abbreviation walk_of key m h :=
  (furc_walk FURC_SHIFT FURC_MAX_TRIES byte_order key m h).
Local Abbreviation ref_of key m :=
  (ref_attempts FURC_SHIFT (bit key) (Z.to_nat FURC_MAX_TRIES) m 0
     (Z.log2_up m) (Z.log2_up m)).

(** What a walk on a pool of more than one bucket leaves: the results of the
    reference walk, and a cache of the same size that satisfies the
    invariant. *)
Lemma furc_walk_facts (key : list byte) (m : Z) (h : list (option Z)) :
  params_ok FURC_SHIFT FURC_MAX_TRIES ->
  cache_fits FURC_SHIFT FURC_MAX_TRIES (length h) ->
  1 < m <= furc_maximum_pool_size FURC_SHIFT ->
  exists w,
    walk_of key m h = Done w /\
    (value w, why w, reads w) = ref_of key m /\
    cache_inv byte_order key (final w) /\
    length (hash (final w)) = length h /\
    1 <= Z.log2_up m <= FURC_SHIFT.
Proof.
  intros Hp Hfit Hm.
  destruct (furc_walk_refines FURC_SHIFT FURC_MAX_TRIES byte_order key m h
              Hp Hfit Hm) as (c' & Hrun & Hinv & Hlen).
  eexists. split; [exact Hrun|]. cbn [value why reads final].
  split; [now destruct (ref_of key m) as [[? ?] ?]|].
  split; [exact Hinv|]. split; [exact Hlen|].
  destruct Hp as (Hs & _). apply (depth_of_pool FURC_SHIFT m Hs Hm).
Qed.

(** The walk on a pool of at most one bucket. *)
Lemma furc_walk_trivial (key : list byte) (m : Z) (h : list (option Z)) :
  m <= 1 -> m <= furc_maximum_pool_size FURC_SHIFT ->
  walk_of key m h = Done (Walk 0 Trivial (Cache h None) []).
Proof.
  intros Hm Hmax. unfold furc_walk.
  destruct (Z.gtb_spec m (furc_maximum_pool_size FURC_SHIFT)); [lia|].
  destruct (Z.leb_spec m 1); [reflexivity|lia].
Qed.

(** The log of a walk is a chain of reads, the first of them placed. *)
Lemma furc_walk_chain (key : list byte) (m : Z) (h : list (option Z)) :
  params_ok FURC_SHIFT FURC_MAX_TRIES ->
  cache_fits FURC_SHIFT FURC_MAX_TRIES (length h) ->
  1 < m <= furc_maximum_pool_size FURC_SHIFT ->
  exists w,
    walk_of key m h = Done w /\
    match reads w with
    | [] => True
    | e :: rest => placed FURC_SHIFT e /\ chain (follows FURC_SHIFT) e rest
    end.
Proof.
  intros Hp Hfit Hm.
  destruct (furc_walk_facts key m h Hp Hfit Hm) as (w & Hrun & Href & _ & _ & Hd).
  exists w. split; [exact Hrun|].
  pose proof (ref_walk_chain FURC_SHIFT FURC_MAX_TRIES byte_order key m
                ltac:(destruct Hp; lia) Hd) as Hc.
  rewrite <- Href in Hc. exact Hc.
Qed.

Lemma chain_adjacent_from_head (e : read_event) (rest pre post : list read_event)
    (e1 e2 : read_event) :
  chain (follows FURC_SHIFT) e rest ->
  e :: rest = pre ++ e1 :: e2 :: post ->
  follows FURC_SHIFT e1 e2.
Proof.
  intros Hc Heq. destruct pre as [|x pre].
  - cbn in Heq. injection Heq as <- ->. exact (proj1 Hc).
  - cbn in Heq. injection Heq as <- ->. eapply chain_adjacent. exact Hc.
Qed.

(** C1. For every key and every pool size [m] up to the pool limit,
    [furc_hash] returns a value; it is a bucket index of [0 .. m-1] when
    [m >= 1], and it is 0 when [m <= 1]. *)
Theorem furc_hash_in_range (key : list byte) (m : Z) :
  params_ok FURC_SHIFT FURC_MAX_TRIES ->
  cache_fits FURC_SHIFT FURC_MAX_TRIES (Z.to_nat FURC_CACHE_SIZE) ->
  0 <= m <= furc_maximum_pool_size FURC_SHIFT ->
  exists r,
    furc_hash FURC_SHIFT FURC_MAX_TRIES FURC_CACHE_SIZE byte_order key m
    = Done r /\
    (1 <= m -> 0 <= r < m) /\
    (m <= 1 -> r = 0).
Proof.
  intros Hp Hfit Hm. unfold furc_hash, furc_hash_array.
  destruct (Z_le_gt_dec m 1) as [Hle|Hgt].
  - rewrite furc_walk_trivial by lia. exists 0. cbn.
    split; [reflexivity|]. split; [lia|reflexivity].
  - destruct (furc_walk_facts key m (replicate (Z.to_nat FURC_CACHE_SIZE) None) Hp)
      as (w & Hrun & Href & _); [rewrite length_replicate; exact Hfit|lia|].
    rewrite Hrun. exists (value w). cbn. split; [reflexivity|].
    symmetry in Href.
    apply ref_attempts_value in Href as (Hv & _);
      [|intros p; apply stream_bit_range|lia].
    split; [intros _; exact Hv|lia].
Qed.

(** C3, as the code has it. Between two successive reads of a walk: after a
    0 read by the descend loop at depth [d], the next read is again of the
    descend loop of that attempt, at depth [d - 1] and at position [d - 1]
    (not [FURC_SHIFT] further); after any other read (a 1 of the descend
    loop, or a read of the candidate-build loop) the next read is at the same
    depth, [FURC_SHIFT] positions further. *)
Theorem descend_steps_to_depth (key : list byte) (m : Z) (h : list (option Z)) :
  params_ok FURC_SHIFT FURC_MAX_TRIES ->
  cache_fits FURC_SHIFT FURC_MAX_TRIES (length h) ->
  1 < m <= furc_maximum_pool_size FURC_SHIFT ->
  exists w,
    walk_of key m h = Done w /\
    forall pre e1 e2 post,
      reads w = pre ++ e1 :: e2 :: post ->
      (ev_phase e1 = Descend -> ev_bit e1 = 0 ->
       ev_phase e2 = Descend /\ ev_try e2 = ev_try e1 /\
       ev_depth e2 = ev_depth e1 - 1 /\ ev_idx e2 = ev_depth e1 - 1) /\
      (ev_phase e1 = Build \/ ev_bit e1 <> 0 ->
       ev_depth e2 = ev_depth e1 /\ ev_idx e2 = ev_idx e1 + FURC_SHIFT).
Proof.
  intros Hp Hfit Hm.
  destruct (furc_walk_chain key m h Hp Hfit Hm) as (w & Hrun & Hc).
  exists w. split; [exact Hrun|].
  intros pre e1 e2 post Heq.
  destruct (reads w) as [|e rest]; [destruct pre; discriminate|].
  destruct Hc as [_ Hc].
  pose proof (chain_adjacent_from_head e rest pre post e1 e2 Hc Heq) as Hf.
  unfold follows, zero_descend in Hf. split.
  - intros Hph Hb. rewrite Hph, Hb in Hf. cbn in Hf. tauto.
  - intros Hor. destruct (ev_phase e1).
    + destruct Hor as [Hor|Hor]; [discriminate|].
      destruct (Z.eqb_spec (ev_bit e1) 0); [contradiction|]. tauto.
    + tauto.
Qed.

(** C5. No bit position is read twice in a walk: the positions of its log
    are pairwise distinct, so that every read, and in particular every read
    of a retry, is at a position that no earlier read of the walk used. *)
Theorem reads_never_repeat (key : list byte) (m : Z) (h : list (option Z)) :
  params_ok FURC_SHIFT FURC_MAX_TRIES ->
  cache_fits FURC_SHIFT FURC_MAX_TRIES (length h) ->
  1 < m <= furc_maximum_pool_size FURC_SHIFT ->
  exists w,
    walk_of key m h = Done w /\
    NoDup (map ev_idx (reads w)) /\
    forall pre e post,
      reads w = pre ++ e :: post ->
      forall e', In e' pre -> ev_idx e' <> ev_idx e.
Proof.
  intros Hp Hfit Hm.
  destruct (furc_walk_chain key m h Hp Hfit Hm) as (w & Hrun & Hc).
  exists w. split; [exact Hrun|].
  assert (Hnd : NoDup (map ev_idx (reads w))).
  { destruct (reads w) as [|e rest]; [constructor|].
    destruct Hc as [Hpl Hc].
    apply (chain_NoDup FURC_SHIFT ltac:(destruct Hp; lia) rest e Hpl Hc). }
  split; [exact Hnd|].
  intros pre e post Heq e' Hin Hidx.
  rewrite Heq, map_app in Hnd. cbn [map] in Hnd.
  apply NoDup_app in Hnd as (_ & Hdisj & _).
  apply (Hdisj (ev_idx e)).
  - rewrite <- Hidx. apply list_elem_of_In, in_map, Hin.
  - left.
Qed.

(** The value of [furc_hash_array] does not mention the array. *)
Lemma furc_hash_array_value (key : list byte) (m : Z) (h : list (option Z)) :
  params_ok FURC_SHIFT FURC_MAX_TRIES ->
  cache_fits FURC_SHIFT FURC_MAX_TRIES (length h) ->
  0 <= m <= furc_maximum_pool_size FURC_SHIFT ->
  furc_hash_array FURC_SHIFT FURC_MAX_TRIES byte_order key m h
  = Done (if m <=? 1 then 0 else (ref_of key m).1.1).
Proof.
  intros Hp Hfit Hm. unfold furc_hash_array.
  destruct (Z.leb_spec m 1) as [Hle|Hgt].
  - rewrite furc_walk_trivial by lia. reflexivity.
  - destruct (furc_walk_facts key m h Hp Hfit ltac:(lia))
      as (w & Hrun & Href & _).
    rewrite Hrun, <- Href. reflexivity.
Qed.

(** A walk leaves an array of the size it was given. *)
Lemma furc_walk_length (key : list byte) (m : Z) (h : list (option Z)) w :
  params_ok FURC_SHIFT FURC_MAX_TRIES ->
  cache_fits FURC_SHIFT FURC_MAX_TRIES (length h) ->
  walk_of key m h = Done w ->
  length (hash (final w)) = length h.
Proof.
  intros Hp Hfit Hrun.
  destruct (Z_le_gt_dec m 1) as [Hle|Hgt].
  - unfold furc_walk in Hrun.
    destruct (m >? furc_maximum_pool_size FURC_SHIFT); [discriminate|].
    destruct (Z.leb_spec m 1); [|lia].
    injection Hrun as <-. reflexivity.
  - destruct (Z_le_gt_dec m (furc_maximum_pool_size FURC_SHIFT)) as [Hle|Hbig].
    + destruct (furc_walk_facts key m h Hp Hfit ltac:(lia))
        as (w' & Hrun' & _ & _ & Hlen & _).
      rewrite Hrun in Hrun'. injection Hrun' as <-. exact Hlen.
    + unfold furc_walk in Hrun.
      destruct (Z.gtb_spec m (furc_maximum_pool_size FURC_SHIFT)); [|lia].
      discriminate.
Qed.

(** C6. The result of [furc_hash_array] is the same for any two initial
    contents of the array, written or not; [furc_hash] returns that result
    too; and so does [furc_hash_array] on the array that an earlier walk, for
    any key and pool, has left. *)
Theorem cache_contents_irrelevant (key : list byte) (m : Z)
    (h1 h2 : list (option Z)) :
  params_ok FURC_SHIFT FURC_MAX_TRIES ->
  cache_fits FURC_SHIFT FURC_MAX_TRIES (length h1) ->
  cache_fits FURC_SHIFT FURC_MAX_TRIES (length h2) ->
  cache_fits FURC_SHIFT FURC_MAX_TRIES (Z.to_nat FURC_CACHE_SIZE) ->
  0 <= m <= furc_maximum_pool_size FURC_SHIFT ->
  furc_hash_array FURC_SHIFT FURC_MAX_TRIES byte_order key m h1
  = furc_hash_array FURC_SHIFT FURC_MAX_TRIES byte_order key m h2 /\
  furc_hash FURC_SHIFT FURC_MAX_TRIES FURC_CACHE_SIZE byte_order key m
  = furc_hash_array FURC_SHIFT FURC_MAX_TRIES byte_order key m h1 /\
  (forall key' m' w',
     walk_of key' m' h1 = Done w' ->
     furc_hash_array FURC_SHIFT FURC_MAX_TRIES byte_order key m
       (hash (final w'))
     = furc_hash FURC_SHIFT FURC_MAX_TRIES FURC_CACHE_SIZE byte_order key m).
Proof.
  intros Hp Hf1 Hf2 Hfc Hm.
  assert (Hh : furc_hash FURC_SHIFT FURC_MAX_TRIES FURC_CACHE_SIZE byte_order
                 key m
               = Done (if m <=? 1 then 0 else (ref_of key m).1.1)).
  { unfold furc_hash. apply furc_hash_array_value; [exact Hp| |exact Hm].
    rewrite length_replicate. exact Hfc. }
  rewrite Hh, !furc_hash_array_value by assumption.
  split; [reflexivity|]. split; [reflexivity|].
  intros key' m' w' Hrun.
  apply furc_hash_array_value; [exact Hp| |exact Hm].
  rewrite (furc_walk_length key' m' h1 w' Hp Hf1 Hrun). exact Hf1.
Qed.

(** C7. On a pool of more than one bucket the walk always returns a value,
    with no fault. When it returns because the depth reached 0 in the descend
    loop (the last read is then a 0 read at depth 1), or because all
    [FURC_MAX_TRIES] attempts were made without an accepted candidate (every
    attempt then has read), the value is 0, a bucket of the pool; and
    [furc_hash] returns the value of the walk. *)
Theorem fallback_is_zero (key : list byte) (m : Z) :
  params_ok FURC_SHIFT FURC_MAX_TRIES ->
  cache_fits FURC_SHIFT FURC_MAX_TRIES (Z.to_nat FURC_CACHE_SIZE) ->
  1 < m <= furc_maximum_pool_size FURC_SHIFT ->
  exists w,
    walk_of key m (replicate (Z.to_nat FURC_CACHE_SIZE) None) = Done w /\
    furc_hash FURC_SHIFT FURC_MAX_TRIES FURC_CACHE_SIZE byte_order key m
    = Done (value w) /\
    (why w = DepthZero \/ why w = GaveUp -> value w = 0 /\ 0 <= value w < m) /\
    (why w = DepthZero ->
     exists pre e, reads w = pre ++ [e] /\
                   ev_phase e = Descend /\ ev_bit e = 0 /\ ev_depth e = 1) /\
    (why w = GaveUp ->
     forall t, 0 <= t < FURC_MAX_TRIES ->
               exists e, In e (reads w) /\ ev_try e = t /\ ev_phase e = Descend).
Proof.
  intros Hp Hfit Hm.
  destruct (furc_walk_facts key m (replicate (Z.to_nat FURC_CACHE_SIZE) None) Hp)
    as (w & Hrun & Href & _ & _ & Hd); [rewrite length_replicate; exact Hfit|exact Hm|].
  exists w. split; [exact Hrun|].
  split; [unfold furc_hash, furc_hash_array; rewrite Hrun; reflexivity|].
  symmetry in Href. destruct w as [v wh c evs]. cbn [value why reads] in *.
  split; [|split].
  - intros Hwhy.
    apply ref_attempts_value in Href as (Hv & Hz & _);
      [|intros p; apply stream_bit_range|lia].
    assert (v = 0) by (apply Hz; destruct Hwhy; congruence). lia.
  - intros ->. eapply ref_attempts_depth_zero; [|exact Href]. lia.
  - intros -> t Ht.
    eapply ref_attempts_gave_up; [|exact Href|]; [lia|].
    destruct Hp as (_ & Hn & _). rewrite Z2Nat.id by lia. lia.
Qed.

(** The build loop reads once per turn. *)
Lemma build_reads (cnt : nat) :
  forall key t a d num c a2 num2 c' evs,
    build FURC_SHIFT byte_order cnt key t a d num c = Done (a2, num2, c', evs) ->
    length evs = cnt.
Proof.
  induction cnt as [|cnt IH]; intros key t a d num c a2 num2 c' evs Hrun.
  - cbn in Hrun. injection Hrun as <- <- <- <-. reflexivity.
  - cbn [build] in Hrun.
    destruct (furc_get_bit byte_order (Some key) a c) as [[b c1]|f];
      [|discriminate].
    rewrite bind_Done in Hrun. cbn beta iota in Hrun.
    destruct (build FURC_SHIFT byte_order cnt key t _ d _ c1)
      as [[[[a' num'] c2] evs']|f] eqn:Erec; [|discriminate].
    rewrite bind_Done in Hrun. injection Hrun as <- <- <- <-.
    cbn [length]. f_equal. eapply IH. exact Erec.
Qed.

(** C8. The walk is total: on every key and every pool of more than one
    bucket it returns a value. It makes at most [FURC_MAX_TRIES] attempts and
    at most [FURC_MAX_TRIES * d] reads, [d] being the depth of the pool, the
    least [d] with [m <= 2^d]; within an attempt every further read of the
    descend loop is one depth lower, and no read is at a depth below 1. The
    descend loop, given one turn per value that [d - 1] can still take, never
    runs out of turns, from any depth and cache; and the candidate-build
    loop reads exactly as many bits as its count [d - 1]. *)
Theorem walk_terminates (key : list byte) (m : Z) (h : list (option Z)) :
  params_ok FURC_SHIFT FURC_MAX_TRIES ->
  cache_fits FURC_SHIFT FURC_MAX_TRIES (length h) ->
  1 < m <= furc_maximum_pool_size FURC_SHIFT ->
  (exists w,
     walk_of key m h = Done w /\
     Z.of_nat (length (reads w)) <= FURC_MAX_TRIES * Z.log2_up m /\
     Forall (fun e => 0 <= ev_try e < FURC_MAX_TRIES /\
                      1 <= ev_depth e <= Z.log2_up m) (reads w) /\
     (forall pre e1 e2 post,
        reads w = pre ++ e1 :: e2 :: post ->
        ev_try e2 = ev_try e1 -> ev_phase e2 = Descend ->
        ev_depth e2 = ev_depth e1 - 1)) /\
  (forall k t a d c,
     0 <= d < 2 ^ 32 ->
     descend byte_order (S (Z.to_nat (u32 (d - 1)))) k t a d c
     <> Fault OutOfFuel) /\
  (forall k t a d c a2 num2 c' evs,
     build FURC_SHIFT byte_order (Z.to_nat (u32 (d - 1))) k t a d 1 c
     = Done (a2, num2, c', evs) ->
     Z.of_nat (length evs) = u32 (d - 1)).
Proof.
  intros Hp Hfit Hm. split; [|split].
  - destruct (furc_walk_facts key m h Hp Hfit Hm)
      as (w & Hrun & Href & _ & _ & Hd).
    destruct (furc_walk_chain key m h Hp Hfit Hm) as (w' & Hrun' & Hc).
    rewrite Hrun in Hrun'. injection Hrun' as <-.
    exists w. split; [exact Hrun|].
    symmetry in Href. destruct Hp as (Hs & Hn & _).
    split; [|split].
    + apply ref_attempts_length in Href; [|lia].
      rewrite Z2Nat.id in Href by lia. exact Href.
    + apply ref_attempts_events in Href; [|lia].
      rewrite Z2Nat.id in Href by lia.
      eapply Forall_impl; [exact Href|]. cbn. intros e. lia.
    + intros pre e1 e2 post Heq Htry Hph.
      destruct (reads w) as [|e rest]; [destruct pre; discriminate|].
      destruct Hc as [_ Hc].
      pose proof (chain_adjacent_from_head e rest pre post e1 e2 Hc Heq) as Hf.
      unfold follows in Hf. destruct (zero_descend e1).
      * tauto.
      * destruct Hf as (_ & _ & [[Hb _]|[_ Ht]]); [congruence|lia].
  - intros k t a d c Hd. apply descend_fuel; [exact Hd|].
    unfold u32. pose proof (Z.mod_pos_bound (d - 1) (2 ^ 32)). lia.
  - intros k t a d c a2 num2 c' evs Hrun.
    apply build_reads in Hrun. rewrite Hrun.
    unfold u32. pose proof (Z.mod_pos_bound (d - 1) (2 ^ 32)). lia.
Qed.

End Walk.

(** C10. After the call with the null key, requests at bit indices in any
    order, decreasing ones included, return the bits of the stream of the
    key. The walk relies on it: each of its reads reports the bit of the
    stream at its position, although the read that follows a 0 of the descend
    loop is always at a lower position than that 0; on the key "c" and a
    pool of 5, the second attempt reads position 72, finds 0, and goes back
    to position 2. *)
Theorem bitstream_any_order (FURC_SHIFT FURC_MAX_TRIES : Z)
    (byte_order : endianness) (key : list byte) (m : Z)
    (h : list (option Z)) (o : option Z) :
  params_ok FURC_SHIFT FURC_MAX_TRIES ->
  cache_fits FURC_SHIFT FURC_MAX_TRIES (length h) ->
  1 < m <= furc_maximum_pool_size FURC_SHIFT ->
  (forall idxs,
     Forall (fun i => 0 <= i < 64 * Z.of_nat (length h)) idxs ->
     exists c0 c',
       furc_get_bit byte_order None 0 (Cache h o) = Done (0, c0) /\
       get_bits byte_order key idxs c0
       = Done (map (stream_bit byte_order key) idxs, c') /\
       cache_inv byte_order key c') /\
  (exists w,
     furc_walk FURC_SHIFT FURC_MAX_TRIES byte_order key m h = Done w /\
     Forall (fun e => ev_bit e = stream_bit byte_order key (ev_idx e))
       (reads w) /\
     forall pre e1 e2 post,
       reads w = pre ++ e1 :: e2 :: post ->
       ev_phase e1 = Descend -> ev_bit e1 = 0 ->
       ev_idx e2 < ev_idx e1) /\
  (exists w pre e1 e2 post,
     furc_walk HashH.FURC_SHIFT HashH.FURC_MAX_TRIES LittleEndian ["c"%byte] 5
       (replicate (Z.to_nat HashH.FURC_CACHE_SIZE) None) = Done w /\
     reads w = pre ++ e1 :: e2 :: post /\
     ev_try e1 = 1 /\ ev_idx e1 = 72 /\ ev_bit e1 = 0 /\ ev_idx e2 = 2).
Proof.
  intros Hp Hfit Hm. split; [|split].
  - intros idxs Hall.
    destruct (reset_spec byte_order key 0 h o) as [Hreset Hinv].
    destruct (get_bits_spec byte_order key idxs _ Hinv Hall)
      as (c' & Hrun & Hinv' & _).
    exists (Cache h (Some (-1))), c'. auto.
  - destruct (furc_walk_facts FURC_SHIFT FURC_MAX_TRIES byte_order key m h
                Hp Hfit Hm) as (w & Hrun & Href & _ & _ & Hd).
    destruct (furc_walk_chain FURC_SHIFT FURC_MAX_TRIES byte_order key m h
                Hp Hfit Hm) as (w' & Hrun' & Hc).
    rewrite Hrun in Hrun'. injection Hrun' as <-.
    exists w. split; [exact Hrun|].
    symmetry in Href. destruct Hp as (Hs & Hn & _). split.
    + apply ref_attempts_events in Href; [|lia].
      eapply Forall_impl; [exact Href|]. cbn. tauto.
    + intros pre e1 e2 post Heq Hph Hb.
      destruct (reads w) as [|e rest]; [destruct pre; discriminate|].
      destruct Hc as [Hpl Hc].
      pose proof (chain_adjacent_from_head FURC_SHIFT e rest pre post e1 e2
                    Hc Heq) as Hf.
      assert (Hp1 : placed FURC_SHIFT e1).
      { pose proof (chain_later FURC_SHIFT ltac:(lia) rest e Hpl Hc) as Hall.
        destruct pre as [|x pre]; cbn in Heq.
        - injection Heq as <- _. exact Hpl.
        - injection Heq as _ ->. rewrite Forall_forall in Hall.
          apply (Hall e1). apply list_elem_of_In, in_or_app. right. left.
          reflexivity. }
      unfold follows, zero_descend in Hf. rewrite Hph, Hb in Hf. cbn in Hf.
      destruct Hf as (_ & _ & _ & _ & Hi).
      destruct Hp1 as (_ & Hi1 & Hcol).
      pose proof (column_le FURC_SHIFT ltac:(lia) (ev_idx e1) Hi1). lia.
  - eexists.
    exists [Read 0 Descend 3 3 1; Read 0 Build 3 26 1; Read 0 Build 3 49 0],
           (Read 1 Descend 3 72 0), (Read 1 Descend 2 2 0),
           [Read 1 Descend 1 1 1].
    split; [vm_compute; reflexivity|]. cbn. repeat split; reflexivity.
Qed.

Lemma bitstream_any_order_witness :
  exists c0 c',
    furc_get_bit LittleEndian None 0 (Cache (replicate 1024 None) None)
    = Done (0, c0) /\
    get_bits LittleEndian ["c"%byte] [72; 2; 1; 300; 0] c0
    = Done (map (stream_bit LittleEndian ["c"%byte]) [72; 2; 1; 300; 0], c') /\
    cache_inv LittleEndian ["c"%byte] c'.
Proof.
  refine (proj1 (bitstream_any_order HashH.FURC_SHIFT HashH.FURC_MAX_TRIES
                   LittleEndian ["c"%byte] 5 (replicate 1024 None) None
                   _ _ _) [72; 2; 1; 300; 0] _).
  - by_computation.
  - by_computation.
  - by_computation.
  - repeat constructor; by_computation.
Defined.

(** ** Witnesses and the counterexample of C3, on the constants of hash.h *)

Lemma furc_hash_in_range_witness :
  exists r,
    furc_hash HashH.FURC_SHIFT HashH.FURC_MAX_TRIES HashH.FURC_CACHE_SIZE
      LittleEndian ["a"%byte] 5 = Done r /\
    (1 <= 5 -> 0 <= r < 5) /\ (5 <= 1 -> r = 0).
Proof.
  apply (furc_hash_in_range HashH.FURC_SHIFT HashH.FURC_MAX_TRIES
           HashH.FURC_CACHE_SIZE LittleEndian ["a"%byte] 5); by_computation.
Defined.

(** C3, as the specification words it, fails: on the key "b" and a pool of
    5 the descend loop of the first attempt reads position 3 and then
    position 2, one apart and not [FURC_SHIFT] = 23. *)
Lemma descend_stride_counterexample :
  ~ descend_stride_claim HashH.FURC_SHIFT HashH.FURC_MAX_TRIES LittleEndian.
Proof.
  intros Hclaim.
  assert (Hrun : exists w,
             furc_walk HashH.FURC_SHIFT HashH.FURC_MAX_TRIES LittleEndian
               ["b"%byte] 5 (replicate (Z.to_nat HashH.FURC_CACHE_SIZE) None)
             = Done w /\
             reads w = [Read 0 Descend 3 3 0; Read 0 Descend 2 2 1;
                        Read 0 Build 2 25 0]).
  { eexists. split; vm_compute; reflexivity. }
  destruct Hrun as (w & Hrun & Hreads).
  assert (H : Z.abs (2 - 3) = HashH.FURC_SHIFT).
  { apply (Hclaim ["b"%byte] 5
             (replicate (Z.to_nat HashH.FURC_CACHE_SIZE) None) w
             [] (Read 0 Descend 3 3 0) (Read 0 Descend 2 2 1)
             [Read 0 Build 2 25 0]);
      [by_computation|by_computation|exact Hrun|exact Hreads|..];
      reflexivity. }
  discriminate H.
Qed.

Lemma descend_steps_to_depth_witness :
  exists w,
    furc_walk HashH.FURC_SHIFT HashH.FURC_MAX_TRIES LittleEndian ["b"%byte] 5
      (replicate 1024 None) = Done w /\
    forall pre e1 e2 post,
      reads w = pre ++ e1 :: e2 :: post ->
      (ev_phase e1 = Descend -> ev_bit e1 = 0 ->
       ev_phase e2 = Descend /\ ev_try e2 = ev_try e1 /\
       ev_depth e2 = ev_depth e1 - 1 /\ ev_idx e2 = ev_depth e1 - 1) /\
      (ev_phase e1 = Build \/ ev_bit e1 <> 0 ->
       ev_depth e2 = ev_depth e1 /\
       ev_idx e2 = ev_idx e1 + HashH.FURC_SHIFT).
Proof.
  apply (descend_steps_to_depth HashH.FURC_SHIFT HashH.FURC_MAX_TRIES
           LittleEndian ["b"%byte] 5 (replicate 1024 None)); by_computation.
Defined.

Lemma reads_never_repeat_witness :
  exists w,
    furc_walk HashH.FURC_SHIFT HashH.FURC_MAX_TRIES LittleEndian ["c"%byte] 5
      (replicate 1024 None) = Done w /\
    NoDup (map ev_idx (reads w)) /\
    forall pre e post,
      reads w = pre ++ e :: post ->
      forall e', In e' pre -> ev_idx e' <> ev_idx e.
Proof.
  apply (reads_never_repeat HashH.FURC_SHIFT HashH.FURC_MAX_TRIES
           LittleEndian ["c"%byte] 5 (replicate 1024 None)); by_computation.
Defined.

Lemma cache_contents_irrelevant_witness :
  furc_hash_array HashH.FURC_SHIFT HashH.FURC_MAX_TRIES LittleEndian
    ["c"%byte] 5 (replicate 1024 None)
  = furc_hash_array HashH.FURC_SHIFT HashH.FURC_MAX_TRIES LittleEndian
      ["c"%byte] 5 (replicate 300 (Some 7)).
Proof.
  refine (proj1 (cache_contents_irrelevant HashH.FURC_SHIFT
                   HashH.FURC_MAX_TRIES HashH.FURC_CACHE_SIZE LittleEndian
                   ["c"%byte] 5 (replicate 1024 None) (replicate 300 (Some 7))
                   _ _ _ _ _)); by_computation.
Defined.

Lemma fallback_is_zero_witness :
  exists w,
    furc_walk HashH.FURC_SHIFT HashH.FURC_MAX_TRIES LittleEndian ["e"%byte] 2
      (replicate (Z.to_nat HashH.FURC_CACHE_SIZE) None) = Done w /\
    furc_hash HashH.FURC_SHIFT HashH.FURC_MAX_TRIES HashH.FURC_CACHE_SIZE
      LittleEndian ["e"%byte] 2 = Done (value w) /\
    (why w = DepthZero \/ why w = GaveUp -> value w = 0 /\ 0 <= value w < 2) /\
    (why w = DepthZero ->
     exists pre e, reads w = pre ++ [e] /\
                   ev_phase e = Descend /\ ev_bit e = 0 /\ ev_depth e = 1) /\
    (why w = GaveUp ->
     forall t, 0 <= t < HashH.FURC_MAX_TRIES ->
               exists e, In e (reads w) /\ ev_try e = t /\ ev_phase e = Descend).
Proof.
  apply (fallback_is_zero HashH.FURC_SHIFT HashH.FURC_MAX_TRIES
           HashH.FURC_CACHE_SIZE LittleEndian ["e"%byte] 2); by_computation.
Defined.

Lemma walk_terminates_witness :
  exists w,
    furc_walk HashH.FURC_SHIFT HashH.FURC_MAX_TRIES LittleEndian ["c"%byte] 5
      (replicate 1024 None) = Done w /\
    Z.of_nat (length (reads w)) <= HashH.FURC_MAX_TRIES * Z.log2_up 5 /\
    Forall (fun e => 0 <= ev_try e < HashH.FURC_MAX_TRIES /\
                     1 <= ev_depth e <= Z.log2_up 5) (reads w) /\
    (forall pre e1 e2 post,
       reads w = pre ++ e1 :: e2 :: post ->
       ev_try e2 = ev_try e1 -> ev_phase e2 = Descend ->
       ev_depth e2 = ev_depth e1 - 1).
Proof.
  refine (proj1 (walk_terminates HashH.FURC_SHIFT HashH.FURC_MAX_TRIES
                   LittleEndian ["c"%byte] 5 (replicate 1024 None) _ _ _));
    by_computation.
Defined.

(** * Further properties of the code *)

(** ** CRC32 *)

Lemma lxor_bound (n a b : Z) :
  0 <= n -> 0 <= a < 2 ^ n -> 0 <= b < 2 ^ n -> 0 <= Z.lxor a b < 2 ^ n.
Proof.
  intros Hn Ha Hb.
  assert (Heq : Z.lxor a b = Z.lxor a b mod 2 ^ n).
  { apply Z.bits_inj'. intros i Hi.
    destruct (Z_lt_ge_dec i n) as [Hlt|Hge].
    - now rewrite Z.mod_pow2_bits_low by lia.
    - rewrite Z.mod_pow2_bits_high by lia. rewrite Z.lxor_spec.
      rewrite <- (Z.mod_small a (2 ^ n)), <- (Z.mod_small b (2 ^ n)) by lia.
      now rewrite !Z.mod_pow2_bits_high by lia. }
  rewrite Heq. apply Z.mod_pos_bound. apply Z.pow_pos_nonneg; lia.
Qed.

Lemma crc32tab_range (i : nat) : 0 <= nth i crc32tab 0 < 2 ^ 32.
Proof.
  assert (Hall : forallb (fun x => (0 <=? x) && (x <? 2 ^ 32)) crc32tab = true)
    by (vm_compute; reflexivity).
  rewrite forallb_forall in Hall.
  destruct (Nat.lt_ge_cases i (length crc32tab)) as [Hlt|Hge].
  - specialize (Hall _ (nth_In crc32tab 0 Hlt)).
    apply andb_true_iff in Hall as [H1 H2].
    apply Z.leb_le in H1. apply Z.ltb_lt in H2. lia.
  - rewrite nth_overflow by exact Hge. lia.
Qed.

Lemma crc32_step_range (sg : bool) (crc : Z) (b : byte) :
  0 <= crc < 2 ^ 32 -> 0 <= crc32_step sg crc b < 2 ^ 32.
Proof.
  intros Hc. unfold crc32_step. apply lxor_bound; [lia| |apply crc32tab_range].
  rewrite Z.shiftr_div_pow2 by lia. split.
  - apply Z.div_pos; lia.
  - apply Z.div_lt_upper_bound; lia.
Qed.

Lemma crc32_fold_range (sg : bool) (key : list byte) :
  forall crc, 0 <= crc < 2 ^ 32 ->
              0 <= fold_left (crc32_step sg) key crc < 2 ^ 32.
Proof.
  induction key as [|b key IH]; intros crc Hc; cbn [fold_left].
  - exact Hc.
  - apply IH, crc32_step_range, Hc.
Qed.

Lemma not32_involutive (x : Z) : 0 <= x < 2 ^ 32 -> not32 (not32 x) = x.
Proof.
  intros Hx. unfold not32, u32.
  assert (H1 : Z.lnot x mod 2 ^ 32 = 2 ^ 32 - 1 - x).
  { unfold Z.lnot. replace (Z.pred (- x)) with (2 ^ 32 - 1 - x + (-1) * 2 ^ 32)
      by lia. rewrite Z.mod_add by lia. apply Z.mod_small. lia. }
  rewrite H1. unfold Z.lnot.
  replace (Z.pred (- (2 ^ 32 - 1 - x))) with (x + (-1) * 2 ^ 32) by lia.
  rewrite Z.mod_add by lia. apply Z.mod_small. lia.
Qed.

(** X1. The checksum does not depend on whether [char] is signed: bytes of
    0x80 and above, which a signed [char] hands to the loop as negative
    numbers, select the same table entries. *)
Theorem crc32_hash_char_sign (key : list byte) :
  crc32_hash true key = crc32_hash false key.
Proof.
  unfold crc32_hash. f_equal. generalize (not32 0).
  induction key as [|b key IH]; intros crc; cbn [fold_left].
  - reflexivity.
  - rewrite IH. f_equal. unfold crc32_step.
    now rewrite !crc32_index_any_sign.
Qed.

(** X2. The checksum of a concatenation is computed by carrying on from the
    checksum of the first part: complement it back into the accumulator, run
    the loop over the second part, complement. The result is always a
    32-bit value. *)
Theorem crc32_hash_app (sg : bool) (k1 k2 : list byte) :
  crc32_hash sg (k1 ++ k2)
  = not32 (fold_left (crc32_step sg) k2 (not32 (crc32_hash sg k1))) /\
  0 <= crc32_hash sg (k1 ++ k2) < 2 ^ 32.
Proof.
  split.
  - unfold crc32_hash. rewrite fold_left_app. f_equal. f_equal.
    symmetry. apply not32_involutive. apply crc32_fold_range.
    vm_compute. split; [discriminate|reflexivity].
  - unfold crc32_hash, not32 at 1, u32. apply Z.mod_pos_bound. lia.
Qed.

(** ** MurmurHash64A *)

(** X3. A key of fewer than 8 bytes has no whole word: the word loop does
    not run, the bytes are folded in one by one, and the hash is the same on
    a little-endian and on a big-endian platform. From 8 bytes on it is not:
    the two byte orders hash the 8 bytes 1, 2, ..., 8 differently. *)
Theorem murmur_hash_short_key_any_byte_order (key : list byte) (seed : Z) :
  (length key < 8)%nat ->
  murmur_hash_64A LittleEndian key seed = murmur_hash_64A BigEndian key seed.
Proof.
  intros Hlen. unfold murmur_hash_64A.
  assert (Hw : Z.to_nat (Z.of_nat (length key) / 8) = 0%nat).
  { rewrite Z.div_small by lia. reflexivity. }
  rewrite Hw. reflexivity.
Qed.

Lemma murmur_hash_short_key_any_byte_order_witness :
  murmur_hash_64A LittleEndian ["f"; "u"; "r"; "c"]%byte SEED
  = murmur_hash_64A BigEndian ["f"; "u"; "r"; "c"]%byte SEED.
Proof.
  apply (murmur_hash_short_key_any_byte_order ["f"; "u"; "r"; "c"]%byte SEED).
  cbn. lia.
Defined.

Example murmur_hash_word_depends_on_byte_order :
  murmur_hash_64A LittleEndian
    [x01; x02; x03; x04; x05; x06; x07; x08]%byte SEED
  <> murmur_hash_64A BigEndian
       [x01; x02; x03; x04; x05; x06; x07; x08]%byte SEED.
Proof. vm_compute. discriminate. Qed.

Lemma le_load_cons_xor (b : byte) (r : list byte) :
  le_load (b :: r) = Z.lxor (byte_val b) (Z.shiftl (le_load r) 8).
Proof.
  cbn [le_load]. rewrite Z.shiftl_mul_pow2 by lia. change (2^8) with 256.
  rewrite (Z.mul_comm _ 256).
  apply Z.add_nocarry_lxor.
  apply Z.bits_inj'. intros n Hn. rewrite Z.land_spec, Z.bits_0.
  pose proof (byte_val_range b).
  destruct (Z_lt_ge_dec n 8).
  - rewrite (Z.mul_comm 256), <- (Z.shiftl_mul_pow2 _ 8) by lia.
    rewrite Z.shiftl_spec_low by lia. apply andb_false_r.
  - rewrite <- (Z.mod_small (byte_val b) (2^8)) by (change (2^8) with 256; lia).
    rewrite Z.mod_pow2_bits_high by lia. reflexivity.
Qed.

(** The [switch] xors the bytes left into [h] at their little-endian places. *)
Lemma tail_short (key : list byte) (h : Z) :
  (1 <= length key < 8)%nat ->
  Murmur.tail (Z.land (Z.of_nat (length key)) 7) key h
  = u64 (Z.lxor h (le_load key) * Murmur.m).
Proof.
  intros Hlen.
  destruct key as [|b0 [|b1 [|b2 [|b3 [|b4 [|b5 [|b6 [|b7 r]]]]]]]];
    cbn [length] in Hlen; try lia;
    match goal with
    | |- Murmur.tail ?l _ _ = _ =>
        let v := eval vm_compute in l in change l with v
    end;
    unfold Murmur.tail; cbn [nth];
    cbv beta iota zeta delta [Z.leb Z.compare Pos.compare Pos.compare_cont];
    f_equal; f_equal;
    rewrite ?le_load_cons_xor; cbn [le_load];
    rewrite ?Z.shiftl_0_l, ?Z.lxor_0_r;
    rewrite ?Z.shiftl_lxor, ?Z.shiftl_shiftl by lia;
    repeat match goal with
           | |- context [Z.shiftl _ (?a + ?b)] =>
               let v := eval vm_compute in (a + b) in change (a + b) with v
           end;
    apply Z.bits_inj'; intros n Hn; rewrite ?Z.lxor_spec; btauto.
Qed.

(** The hash of a key without a whole word. *)
Lemma murmur_short_form (e : endianness) (key : list byte) (seed : Z) :
  (length key < 8)%nat ->
  murmur_hash_64A e key seed
  = Murmur.finish
      (match key with
       | [] => seed
       | _ :: _ =>
           u64 (Z.lxor (Z.lxor seed (u64 (Z.of_nat (length key) * Murmur.m)))
                  (le_load key) * Murmur.m)
       end).
Proof.
  intros Hlen. unfold murmur_hash_64A.
  assert (Hw : Z.to_nat (Z.of_nat (length key) / 8) = 0%nat).
  { rewrite Z.div_small by lia. reflexivity. }
  rewrite Hw. cbn [Murmur.words]. f_equal.
  destruct key as [|b key].
  - cbn. apply Z.lxor_0_r.
  - apply tail_short. cbn [length] in *. lia.
Qed.

(** X4. On a key of fewer than 8 bytes the hash is a function of the length
    and of the number the bytes spell in little-endian order, on any
    platform: the cases of the [switch] fall through from the last byte to
    the first and put byte [i] at bits [8i .. 8i+7]. The empty key hashes to
    the closing mix of the seed alone. *)
Theorem murmur_hash_short_key (e : endianness) (key : list byte) (seed : Z) :
  (length key < 8)%nat ->
  murmur_hash_64A e key seed
  = Murmur.finish
      (match key with
       | [] => seed
       | _ :: _ =>
           u64 (Z.lxor (Z.lxor seed (u64 (Z.of_nat (length key) * Murmur.m)))
                  (le_load key) * Murmur.m)
       end).
Proof. intros Hlen. exact (murmur_short_form e key seed Hlen). Qed.

Lemma murmur_hash_short_key_witness :
  murmur_hash_64A BigEndian ["f"; "u"; "r"; "c"]%byte SEED
  = Murmur.finish
      (u64 (Z.lxor (Z.lxor SEED (u64 (4 * Murmur.m)))
              (le_load ["f"; "u"; "r"; "c"]%byte) * Murmur.m)).
Proof.
  apply (murmur_hash_short_key BigEndian ["f"; "u"; "r"; "c"]%byte SEED).
  cbn. lia.
Defined.

(** ** The bit-stream cache *)

Section CacheBehaviour.

Variable byte_order : endianness.

(** The fill loop writes cells [n .. n + cnt - 1] and no other. *)
Lemma fill_frame (key : list byte) (cnt : nat) :
  forall n h h',
    0 <= n ->
    fill byte_order key cnt n h = Done h' ->
    length h' = length h /\
    forall i : nat,
      Z.of_nat i < n \/ n + Z.of_nat cnt <= Z.of_nat i -> h' !! i = h !! i.
Proof.
  induction cnt as [|cnt IH]; intros n h h' Hn Hrun.
  - cbn in Hrun. injection Hrun as <-. auto.
  - cbn [fill] in Hrun.
    destruct (if n =? 0 then Done (murmur_hash_64A byte_order key SEED)
              else p ← load h (n - 1); Done (murmur_rehash_64A p))
      as [v|f]; [|discriminate].
    rewrite bind_Done in Hrun. unfold store in Hrun.
    destruct ((0 <=? n) && (n <? Z.of_nat (length h))); [|discriminate].
    rewrite bind_Done in Hrun.
    apply IH in Hrun as [Hlen Hsame]; [|lia].
    rewrite length_insert in Hlen. split; [exact Hlen|].
    intros i Hi. rewrite Hsame by lia.
    apply list_lookup_insert_ne. lia.
Qed.

(** X5. A request that returns leaves the array at its size, moves the
    marker to the block of the request when that is beyond it and leaves it
    alone otherwise, and changes no cell up to the old marker nor beyond the
    new one: a block, once computed, is never computed again. *)
Theorem furc_get_bit_frame (key : list byte) (idx : Z) (c c' : cache) (b : Z) :
  furc_get_bit byte_order (Some key) idx c = Done (b, c') ->
  exists o,
    old_ord c = Some o /\
    old_ord c' = Some (Z.max o (idx / 64)) /\
    length (hash c') = length (hash c) /\
    (forall i : nat,
       Z.of_nat i <= o \/ idx / 64 < Z.of_nat i ->
       hash c' !! i = hash c !! i) /\
    0 <= b <= 1.
Proof.
  unfold furc_get_bit. intros Hrun.
  destruct (old_ord c) as [o|] eqn:Ho; [|discriminate].
  rewrite bind_Done in Hrun.
  rewrite Z.shiftr_div_pow2 in Hrun by lia. change (2 ^ 6) with 64 in Hrun.
  exists o. split; [reflexivity|].
  assert (Hbit : forall v s, 0 <= Z.land (Z.shiftr v s) 1 <= 1).
  { intros v s.
    assert (Z.land (Z.shiftr v s) 1 = Z.shiftr v s mod 2) as ->
        by exact (Z.land_ones (Z.shiftr v s) 1 ltac:(lia)).
    pose proof (Z.mod_pos_bound (Z.shiftr v s) 2). lia. }
  destruct (o <? idx / 64) eqn:E.
  - apply Z.ltb_lt in E.
    destruct (fill byte_order key _ _ _) as [h'|f] eqn:Efill; [|discriminate].
    rewrite !bind_Done in Hrun. cbn [hash] in Hrun.
    destruct (load h' (idx / 64)) as [v|f]; [|discriminate].
    rewrite bind_Done in Hrun. injection Hrun as <- <-. cbn [hash old_ord].
    destruct (Z_lt_ge_dec o (-1)) as [Hneg|Hpos].
    + (* a marker below the sentinel: the first store is outside the array *)
      exfalso. destruct (Z.to_nat (idx / 64 - o)) as [|cnt] eqn:Ecnt; [lia|].
      cbn [fill] in Efill.
      destruct (o + 1 =? 0) eqn:E0; [apply Z.eqb_eq in E0; lia|].
      unfold load in Efill.
      destruct (o + 1 - 1 <? 0) eqn:E1; [discriminate|].
      apply Z.ltb_ge in E1. lia.
    + apply fill_frame in Efill as [Hlen Hsame]; [|lia].
      split; [f_equal; lia|]. split; [exact Hlen|]. split; [|apply Hbit].
      intros i Hi. apply Hsame. lia.
  - apply Z.ltb_ge in E. rewrite bind_Done in Hrun.
    destruct (load (hash c) (idx / 64)) as [v|f]; [|discriminate].
    rewrite bind_Done in Hrun. injection Hrun as <- <-.
    split; [rewrite Ho; f_equal; lia|]. split; [reflexivity|].
    split; [reflexivity|apply Hbit].
Qed.

Lemma fill_value (key : list byte) (h : list (option Z)) (n : Z) :
  0 <= n -> filled byte_order key h n ->
  (if n =? 0 then Done (murmur_hash_64A byte_order key SEED)
   else p ← load h (n - 1); Done (murmur_rehash_64A p))
  = Done (block byte_order key (Z.to_nat n)).
Proof.
  intros Hn Hf. destruct (n =? 0) eqn:E.
  - apply Z.eqb_eq in E. subst n. reflexivity.
  - apply Z.eqb_neq in E.
    rewrite (load_filled byte_order key h n) by (auto; lia).
    rewrite bind_Done.
    replace (Z.to_nat n) with (S (Z.to_nat (n - 1))) by lia. reflexivity.
Qed.

(** A fill loop that is asked for more cells than the array has stores past
    its end. *)
Lemma fill_overflow (key : list byte) (cnt : nat) :
  forall n h,
    0 <= n <= Z.of_nat (length h) -> filled byte_order key h n ->
    Z.of_nat (length h) < n + Z.of_nat cnt ->
    fill byte_order key cnt n h = Fault OutOfBounds.
Proof.
  induction cnt as [|cnt IH]; intros n h Hn Hf Hover.
  - lia.
  - cbn [fill]. rewrite fill_value by (auto; lia). rewrite bind_Done.
    unfold store.
    destruct (Z.ltb_spec n (Z.of_nat (length h))) as [Hlt|Hge].
    + replace (0 <=? n) with true by (symmetry; apply Z.leb_le; lia).
      cbn [andb]. rewrite bind_Done. apply IH.
      * rewrite length_insert. lia.
      * apply filled_store; [lia|exact Hf].
      * rewrite length_insert. lia.
    + rewrite andb_false_r. reflexivity.
Qed.

(** X6. [furc_get_bit] does not check the index against the size of the
    array: on a cache in use, a request for a bit whose block lies past the
    last cell fills the array to its end and then stores outside it. *)
Theorem furc_get_bit_past_the_array (key : list byte) (idx : Z) (c : cache) :
  cache_inv byte_order key c ->
  64 * Z.of_nat (length (hash c)) <= idx ->
  furc_get_bit byte_order (Some key) idx c = Fault OutOfBounds.
Proof.
  intros (o & Ho & Hrange & Hf) Hidx.
  unfold furc_get_bit. rewrite Ho, bind_Done.
  rewrite Z.shiftr_div_pow2 by lia. change (2 ^ 6) with 64.
  assert (Hord : Z.of_nat (length (hash c)) <= idx / 64)
    by (apply Z.div_le_lower_bound; lia).
  destruct (Z.ltb_spec o (idx / 64)) as [_|Hge]; [|lia].
  rewrite fill_overflow; [reflexivity|lia|exact Hf|lia].
Qed.

(** X7. [furc_get_bit] serves a block at or below the marker from the array
    without looking at the key: on a cache that holds the stream of one key,
    a request for another key gets the first key's bit and changes nothing.
    Only the call with the null key makes the cache another key's. *)
Theorem furc_get_bit_serves_the_cached_key (key1 key2 : list byte) (idx : Z)
    (c : cache) (o : Z) :
  cache_inv byte_order key1 c -> old_ord c = Some o ->
  0 <= idx -> idx / 64 <= o ->
  furc_get_bit byte_order (Some key2) idx c
  = Done (stream_bit byte_order key1 idx, c).
Proof.
  intros (o' & Ho' & Hrange & Hf) Ho Hidx Hord.
  rewrite Ho in Ho'. injection Ho' as <-.
  unfold furc_get_bit. rewrite Ho, bind_Done.
  rewrite Z.shiftr_div_pow2 by lia. change (2 ^ 6) with 64.
  destruct (Z.ltb_spec o (idx / 64)) as [Hlt|_]; [lia|].
  rewrite bind_Done.
  rewrite (load_filled byte_order key1 (hash c) (o + 1)).
  - rewrite bind_Done, low_bit_of_shift by lia. reflexivity.
  - exact Hf.
  - split; [apply Z.div_pos; lia|lia].
Qed.

End CacheBehaviour.

Lemma furc_get_bit_frame_witness :
  exists o,
    old_ord (Cache (replicate 4 None) (Some (-1))) = Some o /\
    old_ord (Cache [Some 1293955679355367067; Some 8350094539888102011;
                    None; None] (Some 1))
    = Some (Z.max o (100 / 64)) /\
    length (hash (Cache [Some 1293955679355367067; Some 8350094539888102011;
                         None; None] (Some 1)))
    = length (hash (Cache (replicate 4 None) (Some (-1)))) /\
    (forall i : nat,
       Z.of_nat i <= o \/ 100 / 64 < Z.of_nat i ->
       hash (Cache [Some 1293955679355367067; Some 8350094539888102011;
                    None; None] (Some 1)) !! i
       = hash (Cache (replicate 4 None) (Some (-1))) !! i) /\
    0 <= 1 <= 1.
Proof.
  apply (furc_get_bit_frame LittleEndian ["c"%byte] 100
           (Cache (replicate 4 None) (Some (-1)))).
  vm_compute. reflexivity.
Defined.

Lemma furc_get_bit_past_the_array_witness :
  furc_get_bit LittleEndian (Some ["c"%byte]) 256
    (Cache (replicate 4 None) (Some (-1)))
  = Fault OutOfBounds.
Proof.
  apply (furc_get_bit_past_the_array LittleEndian ["c"%byte] 256
           (Cache (replicate 4 None) (Some (-1)))).
  - exists (-1). cbn. split; [reflexivity|]. split; [lia|]. intros i Hi. lia.
  - cbn. lia.
Defined.

Lemma furc_get_bit_serves_the_cached_key_witness :
  furc_get_bit LittleEndian (Some ["d"%byte]) 100
    (Cache [Some (block LittleEndian ["c"%byte] 0);
            Some (block LittleEndian ["c"%byte] 1); None; None] (Some 1))
  = Done (stream_bit LittleEndian ["c"%byte] 100,
          Cache [Some (block LittleEndian ["c"%byte] 0);
                 Some (block LittleEndian ["c"%byte] 1); None; None] (Some 1)).
Proof.
  apply (furc_get_bit_serves_the_cached_key LittleEndian ["c"%byte]
           ["d"%byte] 100 _ 1).
  - exists 1. cbn [hash old_ord length].
    split; [reflexivity|]. split; [lia|].
    intros [|[|i]] Hi; [reflexivity|reflexivity|lia].
  - reflexivity.
  - lia.
  - vm_compute. discriminate.
Defined.

(** ** The reference walk: candidates, pool sizes, bit sources *)

Lemma lor_double_bit (x b : Z) : 0 <= b <= 1 -> Z.lor (2 * x) b = 2 * x + b.
Proof.
  intros Hb. symmetry. apply Z.add_nocarry_lor.
  assert (Hc : b = 0 \/ b = 1) by lia. destruct Hc as [->| ->].
  - apply Z.land_0_r.
  - assert (Z.land (2 * x) 1 = (2 * x) mod 2) as ->
        by exact (Z.land_ones (2 * x) 1 ltac:(lia)).
    rewrite Z.mul_comm. apply Z.mod_mul. lia.
Qed.

Section ReferenceValues.

Variable FURC_SHIFT : Z.
Variable bit : Z -> Z.
Hypothesis bit_01 : forall p, 0 <= bit p <= 1.

(** The attempt number is only written in the log. *)
Lemma ref_descend_try (fuel : nat) :
  forall t t' a d,
    (ref_descend bit fuel t a d).1 = (ref_descend bit fuel t' a d).1.
Proof.
  induction fuel as [|fuel IH]; intros t t' a d; [reflexivity|].
  cbn [ref_descend]. destruct (bit a =? 0); [|reflexivity].
  destruct (d - 1 =? 0); [reflexivity|].
  specialize (IH t t' (d - 1) (d - 1)).
  destruct (ref_descend bit fuel t (d - 1) (d - 1)) as [r evs].
  destruct (ref_descend bit fuel t' (d - 1) (d - 1)) as [r' evs'].
  exact IH.
Qed.

Lemma ref_build_try (cnt : nat) :
  forall t t' a d num,
    (ref_build FURC_SHIFT bit cnt t a d num).1
    = (ref_build FURC_SHIFT bit cnt t' a d num).1.
Proof.
  induction cnt as [|cnt IH]; intros t t' a d num; [reflexivity|].
  cbn [ref_build].
  specialize (IH t t' (a + FURC_SHIFT) d (Z.lor (u32 (Z.shiftl num 1)) (bit a))).
  destruct (ref_build FURC_SHIFT bit cnt t _ d _) as [[a2 n2] evs].
  destruct (ref_build FURC_SHIFT bit cnt t' _ d _) as [[a2' n2'] evs'].
  cbn in *. exact IH.
Qed.

(** A candidate that starts with [j + 1] bits and takes [cnt] more has
    [j + cnt + 1] bits, the leading one set. *)
Lemma ref_build_bounds (cnt : nat) :
  forall t a d num j a2 num2 evs,
    0 <= j -> j + Z.of_nat cnt < 32 ->
    2 ^ j <= num < 2 ^ (j + 1) ->
    ref_build FURC_SHIFT bit cnt t a d num = (a2, num2, evs) ->
    2 ^ (j + Z.of_nat cnt) <= num2 < 2 ^ (j + Z.of_nat cnt + 1).
Proof using bit_01.
  induction cnt as [|cnt IH]; intros t a d num j a2 num2 evs Hj Hsmall Hnum Href.
  - cbn in Href. injection Href as <- <- <-. now rewrite Z.add_0_r.
  - cbn [ref_build] in Href.
    destruct (ref_build FURC_SHIFT bit cnt t (a + FURC_SHIFT) d
                (Z.lor (u32 (Z.shiftl num 1)) (bit a)))
      as [[a' num'] evs'] eqn:Erec.
    injection Href as <- <- <-.
    assert (Hp1 : 2 ^ (j + 1) = 2 * 2 ^ j)
      by (rewrite Z.pow_add_r by lia; lia).
    assert (Hp2 : 2 ^ (j + 1 + 1) = 2 * 2 ^ (j + 1))
      by (rewrite (Z.pow_add_r 2 (j + 1) 1) by lia; lia).
    assert (Hle : 2 ^ (j + 1 + 1) <= 2 ^ 32) by (apply Z.pow_le_mono_r; lia).
    assert (Hpos : 0 < 2 ^ j) by (apply Z.pow_pos_nonneg; lia).
    apply IH with (j := j + 1) in Erec; [| lia | lia |].
    + replace (j + Z.of_nat (S cnt)) with (j + 1 + Z.of_nat cnt) by lia.
      exact Erec.
    + rewrite Z.shiftl_mul_pow2 by lia. change (2 ^ 1) with 2.
      rewrite u32_small by lia.
      rewrite (Z.mul_comm num 2), lor_double_bit by apply bit_01.
      pose proof (bit_01 a). lia.
Qed.

(** The candidate of a descend that found its 1 at depth [d1] is a number
    of [d1] bits. *)
Lemma ref_candidate_bounds (t a d1 a3 num : Z) evs :
  1 <= d1 < 32 ->
  ref_build FURC_SHIFT bit (Z.to_nat (d1 - 1)) t a d1 1 = (a3, num, evs) ->
  2 ^ (d1 - 1) <= num < 2 ^ d1.
Proof using bit_01.
  intros Hd Href.
  apply ref_build_bounds with (j := 0) in Href; [|lia|lia|cbn; lia].
  rewrite Z2Nat.id in Href by lia.
  replace (0 + (d1 - 1)) with (d1 - 1) in Href by lia.
  replace (d1 - 1 + 1) with d1 in Href by lia. exact Href.
Qed.

(** On a pool that has all the numbers of [d] bits, the first attempt
    returns. *)
Lemma ref_attempts_decided (n : nat) (m t a d : Z) :
  1 <= d < 32 -> 2 ^ d <= m ->
  ref_attempts FURC_SHIFT bit (S n) m t a d
  = ref_attempt_once FURC_SHIFT bit t a d.
Proof using bit_01.
  intros Hd Hm. cbn [ref_attempts]. unfold ref_attempt_once.
  destruct (ref_descend bit (Z.to_nat d) t a d) as [found evs1] eqn:Edesc.
  destruct found as [[a1 d1]|]; [|reflexivity].
  apply ref_descend_depth in Edesc; [|lia].
  destruct (ref_build FURC_SHIFT bit (Z.to_nat (d1 - 1)) t
              (a1 + FURC_SHIFT) d1 1) as [[a3 num] evs2] eqn:Ebuild.
  apply ref_candidate_bounds in Ebuild; [|lia].
  assert (2 ^ d1 <= 2 ^ d) by (apply Z.pow_le_mono_r; lia).
  destruct (Z.ltb_spec num m); [reflexivity|lia].
Qed.

(** One attempt from depth [d] reads [d] bits, all in its own name, and
    does not give up. *)
Lemma ref_attempt_once_shape (t a d v : Z) (w : exit) evs :
  1 <= d ->
  ref_attempt_once FURC_SHIFT bit t a d = (v, w, evs) ->
  w <> GaveUp /\ Z.of_nat (length evs) = d /\
  Forall (fun e => ev_try e = t) evs.
Proof.
  intros Hd. unfold ref_attempt_once.
  destruct (ref_descend bit (Z.to_nat d) t a d) as [found evs1] eqn:Edesc.
  pose proof (ref_descend_length bit (Z.to_nat d) t a d found evs1 Hd
                (Nat.le_refl _) Edesc) as Hl1.
  pose proof (ref_descend_events bit _ _ _ _ _ _ Hd Edesc) as He1.
  assert (He1' : Forall (fun e => ev_try e = t) evs1).
  { eapply Forall_impl; [exact He1|]. cbn. intros e. lia. }
  destruct found as [[a1 d1]|].
  - apply ref_descend_depth in Edesc; [|lia].
    destruct (ref_build FURC_SHIFT bit (Z.to_nat (d1 - 1)) t
                (a1 + FURC_SHIFT) d1 1) as [[a3 num] evs2] eqn:Ebuild.
    pose proof (ref_build_length _ _ _ _ _ _ _ _ _ _ Ebuild) as Hl2.
    apply ref_build_events in Ebuild; [|lia].
    intros H. injection H as <- <- <-.
    split; [discriminate|]. split; [rewrite length_app; lia|].
    apply Forall_app. split; [exact He1'|].
    eapply Forall_impl; [exact Ebuild|]. cbn. intros e. lia.
  - intros H. injection H as <- <- <-.
    split; [discriminate|]. split; [lia|exact He1'].
Qed.

(** An accepted value is a candidate: a number of [d1] bits for a depth
    [d1] of the walk, so never 0. *)
Lemma ref_attempts_accepted (n : nat) :
  forall m t a d v evs,
    1 <= d < 32 ->
    ref_attempts FURC_SHIFT bit n m t a d = (v, Accepted, evs) ->
    exists d1, 1 <= d1 <= d /\ 2 ^ (d1 - 1) <= v < 2 ^ d1.
Proof using bit_01.
  induction n as [|n IH]; intros m t a d v evs Hd Href.
  - discriminate.
  - cbn [ref_attempts] in Href.
    destruct (ref_descend bit (Z.to_nat d) t a d) as [found evs1] eqn:Edesc.
    destruct found as [[a1 d1]|]; [|discriminate].
    apply ref_descend_depth in Edesc; [|lia].
    destruct (ref_build FURC_SHIFT bit (Z.to_nat (d1 - 1)) t
                (a1 + FURC_SHIFT) d1 1) as [[a3 num] evs2] eqn:Ebuild.
    apply ref_candidate_bounds in Ebuild; [|lia].
    destruct (num <? m).
    + injection Href as <- <-. exists d1. lia.
    + destruct (ref_attempts FURC_SHIFT bit n m (t + 1) a3 d1)
        as [[v' w'] evs3] eqn:Erec.
      injection Href as <- -> <-.
      apply IH in Erec as (d2 & Hd2 & Hv); [|lia]. exists d2. lia.
Qed.

(** One more bucket at the same depth: the walks part only where the
    candidate is the new bucket. *)
Lemma ref_attempts_next_pool (n : nat) :
  forall m t a d,
    (ref_attempts FURC_SHIFT bit n (m + 1) t a d).1.1
    = (ref_attempts FURC_SHIFT bit n m t a d).1.1 \/
    (ref_attempts FURC_SHIFT bit n (m + 1) t a d).1 = (m, Accepted).
Proof.
  induction n as [|n IH]; intros m t a d; [left; reflexivity|].
  cbn [ref_attempts].
  destruct (ref_descend bit (Z.to_nat d) t a d) as [found evs1].
  destruct found as [[a1 d1]|]; [|left; reflexivity].
  destruct (ref_build FURC_SHIFT bit (Z.to_nat (d1 - 1)) t
              (a1 + FURC_SHIFT) d1 1) as [[a3 num] evs2].
  specialize (IH m (t + 1) a3 d1).
  destruct (ref_attempts FURC_SHIFT bit n m (t + 1) a3 d1) as [[v w] evs3].
  destruct (ref_attempts FURC_SHIFT bit n (m + 1) (t + 1) a3 d1)
    as [[v' w'] evs3'].
  destruct (Z.ltb_spec num m); destruct (Z.ltb_spec num (m + 1));
    cbn [fst snd] in *.
  - left. reflexivity.
  - lia.
  - right. f_equal. lia.
  - exact IH.
Qed.

(** One more bucket than [2 ^ k]: the walk goes one level deeper and comes
    back to what one attempt from depth [k] returns, unless it takes the new
    bucket or runs out of attempts above. *)
Lemma ref_attempts_new_level (n : nat) (k : Z) :
  1 <= k -> k + 1 < 32 ->
  forall t a,
    (ref_attempts FURC_SHIFT bit n (2 ^ k + 1) t a (k + 1)).1.1
    = (ref_attempt_once FURC_SHIFT bit 0 k k).1.1 \/
    (ref_attempts FURC_SHIFT bit n (2 ^ k + 1) t a (k + 1)).1.1 = 2 ^ k \/
    (ref_attempts FURC_SHIFT bit n (2 ^ k + 1) t a (k + 1)).1.2 = GaveUp.
Proof using bit_01.
  intros Hk Hk32.
  induction n as [|n IH]; intros t a; [right; right; reflexivity|].
  cbn [ref_attempts].
  replace (Z.to_nat (k + 1)) with (S (Z.to_nat k)) by lia.
  cbn [ref_descend].
  destruct (bit a =? 0).
  - destruct (Z.eqb_spec (k + 1 - 1) 0) as [Hz|_]; [lia|].
    replace (k + 1 - 1) with k by lia.
    left. unfold ref_attempt_once.
    pose proof (ref_descend_try (Z.to_nat k) t 0 k k) as Htry.
    destruct (ref_descend bit (Z.to_nat k) t k k) as [found evs1] eqn:Edesc.
    destruct (ref_descend bit (Z.to_nat k) 0 k k) as [found0 evs0].
    cbn [fst] in Htry. subst found0.
    destruct found as [[a1 d1]|]; [|reflexivity].
    apply ref_descend_depth in Edesc; [|lia].
    pose proof (ref_build_try (Z.to_nat (d1 - 1)) t 0 (a1 + FURC_SHIFT) d1 1)
      as Hbt.
    destruct (ref_build FURC_SHIFT bit (Z.to_nat (d1 - 1)) t
                (a1 + FURC_SHIFT) d1 1) as [[a3 num] evs2] eqn:Ebuild.
    destruct (ref_build FURC_SHIFT bit (Z.to_nat (d1 - 1)) 0
                (a1 + FURC_SHIFT) d1 1) as [[a3' num'] evs2'].
    cbn [fst] in Hbt. injection Hbt as <- <-.
    apply ref_candidate_bounds in Ebuild; [|lia].
    assert (2 ^ d1 <= 2 ^ k) by (apply Z.pow_le_mono_r; lia).
    destruct (Z.ltb_spec num (2 ^ k + 1)); [reflexivity|lia].
  - destruct (ref_build FURC_SHIFT bit (Z.to_nat (k + 1 - 1)) t
                (a + FURC_SHIFT) (k + 1) 1) as [[a3 num] evs2] eqn:Ebuild.
    apply ref_candidate_bounds in Ebuild; [|lia].
    replace (k + 1 - 1) with k in Ebuild by lia.
    specialize (IH (t + 1) a3).
    destruct (ref_attempts FURC_SHIFT bit n (2 ^ k + 1) (t + 1) a3 (k + 1))
      as [[v' w'] evs3].
    destruct (Z.ltb_spec num (2 ^ k + 1)); cbn [fst snd] in *.
    + right. left. lia.
    + exact IH.
Qed.

End ReferenceValues.

(** The reference walk looks at the bit source only through its values. *)
Section ReferenceExt.

Variable FURC_SHIFT : Z.
Variables bit1 bit2 : Z -> Z.
Hypothesis bit_eq : forall p, bit1 p = bit2 p.

Lemma ref_descend_ext (fuel : nat) :
  forall t a d, ref_descend bit1 fuel t a d = ref_descend bit2 fuel t a d.
Proof using bit_eq.
  induction fuel as [|fuel IH]; intros t a d; [reflexivity|].
  cbn [ref_descend]. now rewrite bit_eq, IH.
Qed.

Lemma ref_build_ext (cnt : nat) :
  forall t a d num,
    ref_build FURC_SHIFT bit1 cnt t a d num
    = ref_build FURC_SHIFT bit2 cnt t a d num.
Proof using bit_eq.
  induction cnt as [|cnt IH]; intros t a d num; [reflexivity|].
  cbn [ref_build]. now rewrite bit_eq, IH.
Qed.

Lemma ref_attempts_ext (n : nat) :
  forall m t a d,
    ref_attempts FURC_SHIFT bit1 n m t a d
    = ref_attempts FURC_SHIFT bit2 n m t a d.
Proof using bit_eq.
  induction n as [|n IH]; intros m t a d; [reflexivity|].
  cbn [ref_attempts]. rewrite ref_descend_ext.
  destruct (ref_descend bit2 (Z.to_nat d) t a d) as [[[a1 d1]|] evs1];
    [|reflexivity].
  rewrite ref_build_ext.
  destruct (ref_build FURC_SHIFT bit2 (Z.to_nat (d1 - 1)) t
              (a1 + FURC_SHIFT) d1 1) as [[a3 num] evs2].
  now rewrite IH.
Qed.

End ReferenceExt.

(** ** The walk: what the bucket depends on, and how it moves with the pool *)

Section WalkBehaviour.

Variables FURC_SHIFT FURC_MAX_TRIES : Z.
Variable byte_order : endianness.

Local Abbreviation bit key := (stream_bit byte_order key).
Local Abbreviation walk_of key m h :=
  (furc_walk FURC_SHIFT FURC_MAX_TRIES byte_order key m h).
Local Abbreviation hash_of key m h :=
  (furc_hash_array FURC_SHIFT FURC_MAX_TRIES byte_order key m h).
Local Abbreviation ref_of key m :=
  (ref_attempts FURC_SHIFT (bit key) (Z.to_nat FURC_MAX_TRIES) m 0
     (Z.log2_up m) (Z.log2_up m)).

Lemma block_of_equal_hashes (k1 k2 : list byte) :
  murmur_hash_64A byte_order k1 SEED = murmur_hash_64A byte_order k2 SEED ->
  forall n, block byte_order k1 n = block byte_order k2 n.
Proof.
  intros Heq n. induction n as [|n IH]; cbn [block]; [exact Heq|].
  now rewrite IH.
Qed.

(** X8. The bucket depends on the key only through its 64-bit hash
    [murmur_hash_64A(key, len, SEED)]: two keys with that hash in common fall
    in the same bucket of every pool, whatever the two arrays hold. *)
Theorem furc_hash_through_murmur (k1 k2 : list byte) (m : Z)
    (h1 h2 : list (option Z)) :
  params_ok FURC_SHIFT FURC_MAX_TRIES ->
  cache_fits FURC_SHIFT FURC_MAX_TRIES (length h1) ->
  cache_fits FURC_SHIFT FURC_MAX_TRIES (length h2) ->
  0 <= m <= furc_maximum_pool_size FURC_SHIFT ->
  murmur_hash_64A byte_order k1 SEED = murmur_hash_64A byte_order k2 SEED ->
  hash_of k1 m h1 = hash_of k2 m h2.
Proof.
  intros Hp Hf1 Hf2 Hm Heq.
  rewrite !(furc_hash_array_value FURC_SHIFT FURC_MAX_TRIES byte_order)
    by assumption.
  do 2 f_equal. destruct (m <=? 1); [reflexivity|].
  rewrite (ref_attempts_ext FURC_SHIFT (bit k1) (bit k2)); [reflexivity|].
  intros p. unfold stream_bit.
  now rewrite (block_of_equal_hashes k1 k2 Heq).
Qed.

(** X9. In a pool of two the bucket is bit 1 of
    [murmur_hash_64A(key, len, SEED)]: the walk reads position 1, returns 0
    on a 0 because the depth is used up, and takes the candidate 1 on a 1. *)
Theorem furc_hash_pool_of_two (key : list byte) (h : list (option Z)) :
  params_ok FURC_SHIFT FURC_MAX_TRIES ->
  cache_fits FURC_SHIFT FURC_MAX_TRIES (length h) ->
  1 <= FURC_MAX_TRIES ->
  hash_of key 2 h
  = Done (Z.b2z (Z.testbit (murmur_hash_64A byte_order key SEED) 1)).
Proof.
  intros Hp Hfit Hn.
  assert (Hmax : 2 <= furc_maximum_pool_size FURC_SHIFT).
  { destruct Hp as (Hs & _). rewrite furc_maximum_pool_size_pow by lia.
    change 2 with (2 ^ 1) at 1. apply Z.pow_le_mono_r; lia. }
  rewrite (furc_hash_array_value FURC_SHIFT FURC_MAX_TRIES byte_order)
    by (auto; lia).
  change (2 <=? 1) with false. cbv iota. change (Z.log2_up 2) with 1.
  replace (Z.to_nat FURC_MAX_TRIES) with (S (Z.to_nat (FURC_MAX_TRIES - 1)))
    by lia.
  cbn [ref_attempts]. change (Z.to_nat 1) with 1%nat. cbn [ref_descend].
  change (Z.b2z (Z.testbit (murmur_hash_64A byte_order key SEED) 1))
    with (bit key 1).
  pose proof (stream_bit_range byte_order key 1) as Hb.
  destruct (Z.eqb_spec (bit key 1) 0) as [Hz|Hnz].
  - change (1 - 1 =? 0) with true. cbv iota. cbn [fst]. now rewrite Hz.
  - change (Z.to_nat (1 - 1)) with 0%nat. cbn [ref_build].
    change (1 <? 2) with true. cbv iota. cbn [fst]. f_equal. lia.
Qed.

(** X10. Bucket 0 is only ever the fallback: an accepted candidate is a
    number of [d1] bits with the leading bit set, for a depth [d1] between 1
    and the depth of the pool, so it is at least 1; the walk returns 0
    exactly when it leaves by the depth reaching 0 or by running out of
    attempts. *)
Theorem bucket_zero_is_the_fallback (key : list byte) (m : Z)
    (h : list (option Z)) :
  params_ok FURC_SHIFT FURC_MAX_TRIES ->
  cache_fits FURC_SHIFT FURC_MAX_TRIES (length h) ->
  1 < m <= furc_maximum_pool_size FURC_SHIFT ->
  exists w,
    walk_of key m h = Done w /\
    (value w = 0 <-> why w = DepthZero \/ why w = GaveUp) /\
    (why w = Accepted ->
     exists d1, 1 <= d1 <= Z.log2_up m /\ 2 ^ (d1 - 1) <= value w < 2 ^ d1).
Proof.
  intros Hp Hfit Hm.
  destruct (furc_walk_facts FURC_SHIFT FURC_MAX_TRIES byte_order key m h
              Hp Hfit Hm) as (w & Hrun & Href & _ & _ & Hd).
  exists w. split; [exact Hrun|].
  symmetry in Href. destruct w as [v wh c evs]. cbn [value why reads] in *.
  destruct Hp as (Hs & _).
  assert (Hacc : wh = Accepted ->
                 exists d1, 1 <= d1 <= Z.log2_up m /\ 2 ^ (d1 - 1) <= v < 2 ^ d1).
  { intros ->.
    eapply (ref_attempts_accepted FURC_SHIFT (bit key)
              (stream_bit_range byte_order key)); [|exact Href]. lia. }
  split; [|exact Hacc].
  apply ref_attempts_value in Href as (_ & Hz & Htriv);
    [|intros p; apply stream_bit_range|lia].
  split.
  - intros Hv. destruct wh; auto; [contradiction|].
    destruct (Hacc eq_refl) as (d1 & Hd1 & Hlow & _).
    assert (0 < 2 ^ (d1 - 1)) by (apply Z.pow_pos_nonneg; lia). lia.
  - intros [-> | ->]; apply Hz; discriminate.
Qed.

(** X11. On a pool whose size is a power of two, [2 ^ k], no candidate is
    rejected: the first attempt returns, after exactly [k] reads. *)
Theorem power_of_two_pool_needs_one_attempt (key : list byte) (k : Z)
    (h : list (option Z)) :
  params_ok FURC_SHIFT FURC_MAX_TRIES ->
  cache_fits FURC_SHIFT FURC_MAX_TRIES (length h) ->
  1 <= FURC_MAX_TRIES ->
  1 <= k <= FURC_SHIFT ->
  exists w,
    walk_of key (2 ^ k) h = Done w /\
    why w <> GaveUp /\
    Z.of_nat (length (reads w)) = k /\
    Forall (fun e => ev_try e = 0) (reads w).
Proof.
  intros Hp Hfit Hn Hk.
  assert (Hs : 0 < FURC_SHIFT < 32) by (destruct Hp; lia).
  assert (Hm : 1 < 2 ^ k <= furc_maximum_pool_size FURC_SHIFT).
  { rewrite furc_maximum_pool_size_pow by lia. split.
    - change 1 with (2 ^ 0). apply Z.pow_lt_mono_r; lia.
    - apply Z.pow_le_mono_r; lia. }
  destruct (furc_walk_facts FURC_SHIFT FURC_MAX_TRIES byte_order key (2 ^ k) h
              Hp Hfit Hm) as (w & Hrun & Href & _).
  exists w. split; [exact Hrun|].
  rewrite Z.log2_up_pow2 in Href by lia.
  replace (Z.to_nat FURC_MAX_TRIES) with (S (Z.to_nat (FURC_MAX_TRIES - 1)))
    in Href by lia.
  rewrite (ref_attempts_decided FURC_SHIFT (bit key)
             (stream_bit_range byte_order key)) in Href by lia.
  symmetry in Href. destruct w as [v wh c evs]. cbn [value why reads] in *.
  apply ref_attempt_once_shape in Href; [exact Href|lia].
Qed.

(** X12. How the bucket of a key moves when the pool grows by one bucket,
    from [m] to [m + 1]: the key stays in its bucket, or it moves to the new
    bucket [m]; the one exception is a pool that grows from a power of two,
    where the walk goes one level deeper and may use up all its attempts
    there, which sends the key to bucket 0. *)
Theorem furc_hash_grows_consistently (key : list byte) (m : Z)
    (h h' : list (option Z)) :
  params_ok FURC_SHIFT FURC_MAX_TRIES ->
  cache_fits FURC_SHIFT FURC_MAX_TRIES (length h) ->
  cache_fits FURC_SHIFT FURC_MAX_TRIES (length h') ->
  1 <= m -> m + 1 <= furc_maximum_pool_size FURC_SHIFT ->
  exists w w',
    walk_of key m h = Done w /\
    walk_of key (m + 1) h' = Done w' /\
    hash_of key m h = Done (value w) /\
    hash_of key (m + 1) h' = Done (value w') /\
    (value w' = value w \/
     value w' = m \/
     (why w' = GaveUp /\ value w' = 0 /\ exists k, m = 2 ^ k)).
Proof.
  intros Hp Hf Hf' Hm1 Hmax.
  assert (Hs : 0 < FURC_SHIFT < 32) by (destruct Hp; lia).
  destruct (furc_walk_facts FURC_SHIFT FURC_MAX_TRIES byte_order key (m + 1) h'
              Hp Hf' ltac:(lia)) as (w' & Hrun' & Href' & _ & _ & Hd').
  assert (Hrange' : 0 <= value w' < m + 1 /\ (why w' <> Accepted -> value w' = 0)).
  { symmetry in Href'. destruct w' as [v' wh' c' evs']. cbn [value why] in *.
    apply ref_attempts_value in Href' as (Hv & Hz & _);
      [auto|intros p; apply stream_bit_range|lia]. }
  destruct (Z.eq_dec m 1) as [->|Hne].
  - (* from one bucket to two *)
    exists (Walk 0 Trivial (Cache h None) []), w'.
    pose proof (furc_walk_trivial FURC_SHIFT FURC_MAX_TRIES byte_order key 1 h
                  ltac:(lia) ltac:(lia)) as Hrun.
    split; [exact Hrun|]. split; [exact Hrun'|].
    split; [unfold furc_hash_array; now rewrite Hrun|].
    split; [unfold furc_hash_array; now rewrite Hrun'|].
    cbn [value]. lia.
  - destruct (furc_walk_facts FURC_SHIFT FURC_MAX_TRIES byte_order key m h
                Hp Hf ltac:(lia)) as (w & Hrun & Href & _ & _ & Hd).
    exists w, w'. split; [exact Hrun|]. split; [exact Hrun'|].
    split; [unfold furc_hash_array; now rewrite Hrun|].
    split; [unfold furc_hash_array; now rewrite Hrun'|].
    assert (Hv : value w = (ref_of key m).1.1) by now rewrite <- Href.
    assert (Hv' : value w' = (ref_of key (m + 1)).1.1) by now rewrite <- Href'.
    assert (Hw' : why w' = (ref_of key (m + 1)).1.2) by now rewrite <- Href'.
    destruct (Z.log2_up_succ_or m) as [Hup|Hsame].
    + (* [m] is a power of two: one level deeper *)
      apply Z.log2_up_eq_succ_iff_pow2 in Hup as [k Hk]; [|lia].
      assert (Hk1 : 1 <= k).
      { destruct (Z_lt_ge_dec k 1) as [Hlt|]; [|lia]. exfalso.
        destruct (Z_lt_ge_dec k 0) as [Hneg|Hge].
        - rewrite Z.pow_neg_r in Hk by lia. lia.
        - replace k with 0 in Hk by lia. cbn in Hk. lia. }
      assert (Hlk : Z.log2_up m = k) by (rewrite Hk; apply Z.log2_up_pow2; lia).
      assert (Hlk' : Z.log2_up (m + 1) = k + 1).
      { apply Z.log2_up_unique; [lia|].
        replace (Z.pred (k + 1)) with k by lia.
        rewrite Z.pow_add_r by lia. change (2 ^ 1) with 2.
        assert (0 < 2 ^ k) by (apply Z.pow_pos_nonneg; lia). lia. }
      rewrite Hlk' in Hv', Hw'. rewrite Hlk in Hv. subst m.
      destruct (Z.to_nat FURC_MAX_TRIES) as [|n] eqn:En.
      * left. rewrite Hv, Hv'. reflexivity.
      * rewrite (ref_attempts_decided FURC_SHIFT (bit key)
                   (stream_bit_range byte_order key)) in Hv by lia.
        destruct (ref_attempts_new_level FURC_SHIFT (bit key)
                    (stream_bit_range byte_order key) (S n) k Hk1 ltac:(lia)
                    0 (k + 1)) as [H|[H|H]].
        -- left. congruence.
        -- right. left. congruence.
        -- right. right. rewrite <- Hw' in H.
           split; [exact H|]. split; [|eauto].
           apply (proj2 Hrange'). rewrite H. discriminate.
    + (* the same depth *)
      replace (Z.succ m) with (m + 1) in Hsame by lia.
      rewrite Hsame in Hv'.
      destruct (ref_attempts_next_pool FURC_SHIFT (bit key)
                  (Z.to_nat FURC_MAX_TRIES) m 0 (Z.log2_up m) (Z.log2_up m))
        as [H|H].
      * left. congruence.
      * right. left. rewrite Hv'. now rewrite H.
Qed.

End WalkBehaviour.

Lemma furc_hash_through_murmur_witness :
  furc_hash_array HashH.FURC_SHIFT HashH.FURC_MAX_TRIES LittleEndian
    ["c"%byte] 5 (replicate 1024 None)
  = furc_hash_array HashH.FURC_SHIFT HashH.FURC_MAX_TRIES LittleEndian
      ["c"%byte] 5 (replicate 300 (Some 7)).
Proof.
  apply (furc_hash_through_murmur HashH.FURC_SHIFT HashH.FURC_MAX_TRIES
           LittleEndian ["c"%byte] ["c"%byte] 5
           (replicate 1024 None) (replicate 300 (Some 7)));
    by_computation.
Defined.

Lemma furc_hash_pool_of_two_witness :
  furc_hash_array HashH.FURC_SHIFT HashH.FURC_MAX_TRIES LittleEndian
    ["c"%byte] 2 (replicate 1024 None)
  = Done (Z.b2z (Z.testbit (murmur_hash_64A LittleEndian ["c"%byte] SEED) 1)).
Proof.
  apply (furc_hash_pool_of_two HashH.FURC_SHIFT HashH.FURC_MAX_TRIES
           LittleEndian ["c"%byte] (replicate 1024 None)); by_computation.
Defined.

Lemma bucket_zero_is_the_fallback_witness :
  exists w,
    furc_walk HashH.FURC_SHIFT HashH.FURC_MAX_TRIES LittleEndian ["c"%byte] 5
      (replicate 1024 None) = Done w /\
    (value w = 0 <-> why w = DepthZero \/ why w = GaveUp) /\
    (why w = Accepted ->
     exists d1, 1 <= d1 <= Z.log2_up 5 /\ 2 ^ (d1 - 1) <= value w < 2 ^ d1).
Proof.
  apply (bucket_zero_is_the_fallback HashH.FURC_SHIFT HashH.FURC_MAX_TRIES
           LittleEndian ["c"%byte] 5 (replicate 1024 None)); by_computation.
Defined.

Lemma power_of_two_pool_needs_one_attempt_witness :
  exists w,
    furc_walk HashH.FURC_SHIFT HashH.FURC_MAX_TRIES LittleEndian ["c"%byte]
      (2 ^ 3) (replicate 1024 None) = Done w /\
    why w <> GaveUp /\
    Z.of_nat (length (reads w)) = 3 /\
    Forall (fun e => ev_try e = 0) (reads w).
Proof.
  apply (power_of_two_pool_needs_one_attempt HashH.FURC_SHIFT
           HashH.FURC_MAX_TRIES LittleEndian ["c"%byte] 3
           (replicate 1024 None)); by_computation.
Defined.

Lemma furc_hash_grows_consistently_witness :
  exists w w',
    furc_walk HashH.FURC_SHIFT HashH.FURC_MAX_TRIES LittleEndian ["a"%byte] 4
      (replicate 1024 None) = Done w /\
    furc_walk HashH.FURC_SHIFT HashH.FURC_MAX_TRIES LittleEndian ["a"%byte]
      (4 + 1) (replicate 300 None) = Done w' /\
    furc_hash_array HashH.FURC_SHIFT HashH.FURC_MAX_TRIES LittleEndian
      ["a"%byte] 4 (replicate 1024 None) = Done (value w) /\
    furc_hash_array HashH.FURC_SHIFT HashH.FURC_MAX_TRIES LittleEndian
      ["a"%byte] (4 + 1) (replicate 300 None) = Done (value w') /\
    (value w' = value w \/
     value w' = 4 \/
     (why w' = GaveUp /\ value w' = 0 /\ exists k, 4 = 2 ^ k)).
Proof.
  apply (furc_hash_grows_consistently HashH.FURC_SHIFT HashH.FURC_MAX_TRIES
           LittleEndian ["a"%byte] 4 (replicate 1024 None)
           (replicate 300 None)); by_computation.
Defined.

(** The exception of X12 is taken: with a single attempt allowed, the key
    "c" is in bucket 1 of a pool of 4 and falls back to bucket 0 in a pool
    of 5. *)
Example furc_hash_gives_up_above_a_power_of_two :
  furc_hash_array HashH.FURC_SHIFT 1 LittleEndian ["c"%byte] 4
    (replicate 300 None) = Done 1 /\
  furc_hash_array HashH.FURC_SHIFT 1 LittleEndian ["c"%byte] 5
    (replicate 300 None) = Done 0.
Proof. split; vm_compute; reflexivity. Qed.

(** ** MurmurHash64A has no collisions on one word *)

Lemma high_bits_clear (x i : Z) :
  0 <= x < 2 ^ 64 -> 64 <= i -> Z.testbit x i = false.
Proof.
  intros Hx Hi. rewrite <- (Z.mod_small x (2 ^ 64)) by lia.
  apply Z.mod_pow2_bits_high. lia.
Qed.

Lemma xorshift_range (x : Z) :
  0 <= x < 2 ^ 64 -> 0 <= Z.lxor x (Z.shiftr x Murmur.r) < 2 ^ 64.
Proof.
  intros Hx. apply lxor_bound; [lia|exact Hx|].
  rewrite Z.shiftr_div_pow2 by (unfold Murmur.r; lia). split.
  - apply Z.div_pos; [lia|]. unfold Murmur.r. lia.
  - apply Z.div_lt_upper_bound; unfold Murmur.r; lia.
Qed.

(** [h ^= h >> r] undoes itself on a 64-bit value, [2 * r] being more than
    64. *)
Lemma xorshift_involutive (x : Z) :
  0 <= x < 2 ^ 64 ->
  Z.lxor (Z.lxor x (Z.shiftr x Murmur.r))
    (Z.shiftr (Z.lxor x (Z.shiftr x Murmur.r)) Murmur.r) = x.
Proof.
  intros Hx. unfold Murmur.r. apply Z.bits_inj'. intros n Hn.
  rewrite !Z.lxor_spec, !Z.shiftr_spec, !Z.lxor_spec, !Z.shiftr_spec by lia.
  rewrite (high_bits_clear x (n + 47 + 47)) by lia.
  destruct (Z.testbit x n), (Z.testbit x (n + 47)); reflexivity.
Qed.

Lemma xorshift_cancel (x y : Z) :
  0 <= x < 2 ^ 64 -> 0 <= y < 2 ^ 64 ->
  Z.lxor x (Z.shiftr x Murmur.r) = Z.lxor y (Z.shiftr y Murmur.r) -> x = y.
Proof.
  intros Hx Hy Heq.
  rewrite <- (xorshift_involutive x Hx), <- (xorshift_involutive y Hy).
  now rewrite Heq.
Qed.

(** [k *= m] is undone by the multiplication by [murmur_m_inv]. *)
Lemma mul_m_cancel (x y : Z) :
  0 <= x < 2 ^ 64 -> 0 <= y < 2 ^ 64 ->
  u64 (x * Murmur.m) = u64 (y * Murmur.m) -> x = y.
Proof.
  assert (Hinv : forall z, 0 <= z < 2 ^ 64 ->
                           u64 (u64 (z * Murmur.m) * murmur_m_inv) = z).
  { intros z Hz. rewrite u64_mul_idemp. unfold u64.
    rewrite <- Z.mul_assoc, <- Z.mul_mod_idemp_r by lia.
    change ((Murmur.m * murmur_m_inv) mod 2 ^ 64) with 1.
    rewrite Z.mul_1_r. apply Z.mod_small. exact Hz. }
  intros Hx Hy Heq. rewrite <- (Hinv x Hx), <- (Hinv y Hy). now rewrite Heq.
Qed.

Lemma lxor_cancel_l (a b c : Z) : Z.lxor a b = Z.lxor a c -> b = c.
Proof.
  intros Heq. apply Z.bits_inj'. intros n Hn.
  apply (f_equal (fun z => Z.testbit z n)) in Heq.
  rewrite !Z.lxor_spec in Heq.
  destruct (Z.testbit a n), (Z.testbit b n), (Z.testbit c n);
    cbn in Heq; congruence.
Qed.

Lemma u64_range (x : Z) : 0 <= u64 x < 2 ^ 64.
Proof. unfold u64. apply Z.mod_pos_bound. lia. Qed.

(** The word loop body and the closing mix lose nothing of a 64-bit word. *)
Lemma mix_word_cancel (h k1 k2 : Z) :
  0 <= h < 2 ^ 64 -> 0 <= k1 < 2 ^ 64 -> 0 <= k2 < 2 ^ 64 ->
  Murmur.mix_word h k1 = Murmur.mix_word h k2 -> k1 = k2.
Proof.
  intros Hh H1 H2. unfold Murmur.mix_word. intros Heq.
  apply mul_m_cancel in Heq;
    [|apply lxor_bound; [lia|exact Hh|apply u64_range]..].
  apply lxor_cancel_l in Heq.
  apply mul_m_cancel in Heq; [|apply xorshift_range, u64_range..].
  apply xorshift_cancel in Heq; [|apply u64_range..].
  apply mul_m_cancel in Heq; assumption.
Qed.

Lemma finish_cancel (h1 h2 : Z) :
  0 <= h1 < 2 ^ 64 -> 0 <= h2 < 2 ^ 64 ->
  Murmur.finish h1 = Murmur.finish h2 -> h1 = h2.
Proof.
  intros H1 H2. unfold Murmur.finish. intros Heq.
  apply xorshift_cancel in Heq; [|apply u64_range..].
  apply mul_m_cancel in Heq; [|apply xorshift_range; assumption..].
  apply xorshift_cancel in Heq; assumption.
Qed.

Lemma mix_word_range (h k : Z) : 0 <= Murmur.mix_word h k < 2 ^ 64.
Proof. unfold Murmur.mix_word. apply u64_range. Qed.

Lemma finish_range (h : Z) : 0 <= Murmur.finish h < 2 ^ 64.
Proof. unfold Murmur.finish. apply xorshift_range, u64_range. Qed.

Lemma murmur_rehash_finish (k : Z) :
  murmur_rehash_64A k
  = Murmur.finish
      (Murmur.mix_word (Z.lxor SEED (u64 (8 * Murmur.m))) k).
Proof. reflexivity. Qed.

Lemma murmur_rehash_cancel (k1 k2 : Z) :
  0 <= k1 < 2 ^ 64 -> 0 <= k2 < 2 ^ 64 ->
  murmur_rehash_64A k1 = murmur_rehash_64A k2 -> k1 = k2.
Proof.
  intros H1 H2. rewrite !murmur_rehash_finish. intros Heq.
  apply finish_cancel in Heq; [|apply mix_word_range..].
  apply mix_word_cancel in Heq; [exact Heq| |exact H1|exact H2].
  apply lxor_bound; [lia|unfold SEED; lia|apply u64_range].
Qed.

(** X13. [murmur_rehash_64A] is one-to-one on 64-bit values: every step of
    it (the multiplications by the odd [m], the shifts-and-xors by 47 bits,
    the xor into [h]) can be undone. Two streams that differ in one block
    differ in all the blocks after it. *)
Theorem murmur_rehash_injective (k1 k2 : Z) :
  0 <= k1 < 2 ^ 64 -> 0 <= k2 < 2 ^ 64 ->
  murmur_rehash_64A k1 = murmur_rehash_64A k2 -> k1 = k2.
Proof.
  intros H1 H2 Heq. exact (murmur_rehash_cancel k1 k2 H1 H2 Heq).
Qed.

Lemma murmur_rehash_injective_witness : 5 = 5.
Proof.
  apply (murmur_rehash_injective 5 5); [lia|lia|reflexivity].
Defined.

Lemma le_load_range (bs : list byte) :
  0 <= le_load bs < 256 ^ Z.of_nat (length bs).
Proof.
  induction bs as [|b bs IH].
  - cbn. lia.
  - cbn [le_load length]. rewrite Nat2Z.inj_succ, Z.pow_succ_r by lia.
    pose proof (byte_val_range b). lia.
Qed.

Lemma byte_val_inj (b1 b2 : byte) : byte_val b1 = byte_val b2 -> b1 = b2.
Proof.
  unfold byte_val. intros Heq. apply N2Z.inj in Heq.
  pose proof (Byte.of_to_N b1) as H1. rewrite Heq, Byte.of_to_N in H1.
  now injection H1.
Qed.

Lemma le_load_inj (bs1 : list byte) :
  forall bs2, length bs1 = length bs2 -> le_load bs1 = le_load bs2 ->
              bs1 = bs2.
Proof.
  induction bs1 as [|b1 bs1 IH]; intros [|b2 bs2] Hlen Heq;
    try discriminate; [reflexivity|].
  cbn [le_load] in Heq. cbn [length] in Hlen.
  pose proof (byte_val_range b1). pose proof (byte_val_range b2).
  assert (byte_val b1 = byte_val b2 /\ le_load bs1 = le_load bs2) as [Hb Hr]
      by lia.
  f_equal; [apply byte_val_inj, Hb|apply IH; [lia|exact Hr]].
Qed.

Lemma load64_inj (e : endianness) (bs1 bs2 : list byte) :
  length bs1 = length bs2 -> load64 e bs1 = load64 e bs2 -> bs1 = bs2.
Proof.
  intros Hlen. destruct e; unfold load64; intros Heq.
  - apply le_load_inj; assumption.
  - apply le_load_inj in Heq; [|now rewrite !length_rev].
    rewrite <- (rev_involutive bs1), <- (rev_involutive bs2). now rewrite Heq.
Qed.

Lemma load64_range (e : endianness) (bs : list byte) :
  length bs = 8%nat -> 0 <= load64 e bs < 2 ^ 64.
Proof.
  intros Hlen.
  assert (H : 0 <= le_load (match e with
                            | LittleEndian => bs
                            | BigEndian => rev bs
                            end) < 256 ^ Z.of_nat 8).
  { destruct e.
    - rewrite <- Hlen. apply le_load_range.
    - rewrite <- Hlen, <- length_rev. apply le_load_range. }
  destruct e; exact H.
Qed.

(** The hash of a key of one word. *)
Lemma murmur_hash_one_word (e : endianness) (key : list byte) (seed : Z) :
  length key = 8%nat ->
  murmur_hash_64A e key seed
  = Murmur.finish
      (Murmur.mix_word (Z.lxor seed (u64 (8 * Murmur.m))) (load64 e key)).
Proof.
  intros Hlen. unfold murmur_hash_64A. rewrite Hlen.
  change (Z.to_nat (Z.of_nat 8 / 8)) with 1%nat.
  change (Z.land (Z.of_nat 8) 7) with 0.
  cbn [Murmur.words]. rewrite take_ge by lia. reflexivity.
Qed.

(** X14. [murmur_hash_64A] has no collisions among keys of 8 bytes: under
    one seed and one byte order, two such keys with the same hash are the
    same key. *)
Theorem murmur_hash_one_word_injective (e : endianness) (k1 k2 : list byte)
    (seed : Z) :
  length k1 = 8%nat -> length k2 = 8%nat -> 0 <= seed < 2 ^ 32 ->
  murmur_hash_64A e k1 seed = murmur_hash_64A e k2 seed -> k1 = k2.
Proof.
  intros H1 H2 Hseed. rewrite !murmur_hash_one_word by assumption.
  intros Heq.
  apply finish_cancel in Heq; [|apply mix_word_range..].
  apply mix_word_cancel in Heq; [| |apply load64_range; assumption..].
  - apply (load64_inj e); [congruence|exact Heq].
  - apply lxor_bound; [lia|lia|apply u64_range].
Qed.

Lemma murmur_hash_one_word_injective_witness :
  [x01; x02; x03; x04; x05; x06; x07; x08]%byte
  = [x01; x02; x03; x04; x05; x06; x07; x08]%byte.
Proof.
  apply (murmur_hash_one_word_injective LittleEndian
           [x01; x02; x03; x04; x05; x06; x07; x08]%byte
           [x01; x02; x03; x04; x05; x06; x07; x08]%byte SEED);
    [reflexivity|reflexivity|unfold SEED; lia|reflexivity].
Defined.

(** X20. [murmur_hash_64A] has no collisions either among the keys of one
    length below 8 bytes: the length and the bytes go through the same
    invertible steps. *)
Theorem murmur_hash_short_keys_injective (e : endianness) (k1 k2 : list byte)
    (seed : Z) :
  length k1 = length k2 -> (length k1 < 8)%nat -> 0 <= seed < 2 ^ 32 ->
  murmur_hash_64A e k1 seed = murmur_hash_64A e k2 seed -> k1 = k2.
Proof.
  intros Hlen Hshort Hseed.
  rewrite !murmur_short_form by lia.
  destruct k1 as [|b1 k1], k2 as [|b2 k2]; try discriminate; [reflexivity|].
  intros Heq. rewrite <- Hlen in Heq.
  set (h0 := Z.lxor seed (u64 (Z.of_nat (length (b1 :: k1)) * Murmur.m))) in *.
  assert (Hh0 : 0 <= h0 < 2 ^ 64)
    by (apply lxor_bound; [lia|lia|apply u64_range]).
  assert (Hload : forall k : list byte,
             length k = length (b1 :: k1) -> 0 <= le_load k < 2 ^ 64).
  { intros k Hk. pose proof (le_load_range k) as Hr. rewrite Hk in Hr.
    assert (256 ^ Z.of_nat (length (b1 :: k1)) <= 256 ^ 8)
      by (apply Z.pow_le_mono_r; lia).
    change (256 ^ 8) with (2 ^ 64) in *. lia. }
  apply finish_cancel in Heq; [|apply u64_range..].
  apply mul_m_cancel in Heq;
    [|apply lxor_bound; [lia|exact Hh0|apply Hload; congruence]..].
  apply lxor_cancel_l in Heq.
  apply le_load_inj; assumption.
Qed.

Lemma murmur_hash_short_keys_injective_witness :
  ["f"; "u"; "r"; "c"]%byte = ["f"; "u"; "r"; "c"]%byte.
Proof.
  apply (murmur_hash_short_keys_injective BigEndian ["f"; "u"; "r"; "c"]%byte
           ["f"; "u"; "r"; "c"]%byte SEED);
    [reflexivity|cbn; lia|unfold SEED; lia|reflexivity].
Defined.

Lemma murmur_hash_range (e : endianness) (key : list byte) (seed : Z) :
  0 <= murmur_hash_64A e key seed < 2 ^ 64.
Proof.
  unfold murmur_hash_64A.
  destruct (Murmur.words e _ key _) as [h data2]. apply finish_range.
Qed.

Lemma block_range (e : endianness) (key : list byte) (n : nat) :
  0 <= block e key n < 2 ^ 64.
Proof.
  destruct n as [|n]; cbn [block].
  - apply murmur_hash_range.
  - rewrite murmur_rehash_finish. apply finish_range.
Qed.

(** X15. The streams of two keys agree in one block exactly when the keys
    have the same hash [murmur_hash_64A(key, len, SEED)], and then they
    agree in every block: streams never merge and never part. *)
Theorem streams_agree_iff_hashes_agree (e : endianness) (k1 k2 : list byte)
    (n : nat) :
  block e k1 n = block e k2 n
  <-> murmur_hash_64A e k1 SEED = murmur_hash_64A e k2 SEED.
Proof.
  split.
  - induction n as [|n IH]; cbn [block]; [auto|].
    intros Heq. apply IH.
    apply murmur_rehash_cancel in Heq; [exact Heq|apply block_range..].
  - intros Heq. induction n as [|n IH]; cbn [block]; [exact Heq|].
    now rewrite IH.
Qed.

(** ** The walk: how far it reads, and what the constants change *)

Section ReferenceReach.

Variable FURC_SHIFT : Z.
Variable bit : Z -> Z.
Hypothesis shift_pos : 0 < FURC_SHIFT.

Lemma ref_descend_positions (fuel : nat) :
  forall t a d r evs,
    1 <= d <= a ->
    ref_descend bit fuel t a d = (r, evs) ->
    Forall (fun e => 1 <= ev_idx e <= a) evs.
Proof.
  induction fuel as [|fuel IH]; intros t a d r evs Hd Href.
  - injection Href as <- <-. constructor.
  - cbn [ref_descend] in Href.
    destruct (bit a =? 0).
    + destruct (d - 1 =? 0) eqn:E.
      * injection Href as <- <-. repeat constructor; cbn; lia.
      * apply Z.eqb_neq in E.
        destruct (ref_descend bit fuel t (d - 1) (d - 1)) as [r' evs'] eqn:Erec.
        injection Href as <- <-. constructor; [cbn; lia|].
        apply IH in Erec; [|lia].
        eapply Forall_impl; [exact Erec|]. cbn. intros e. lia.
    + injection Href as <- <-. repeat constructor; cbn; lia.
Qed.

Lemma ref_build_positions (cnt : nat) :
  forall t a d num a2 num2 evs,
    ref_build FURC_SHIFT bit cnt t a d num = (a2, num2, evs) ->
    Forall (fun e => a <= ev_idx e < a + Z.of_nat cnt * FURC_SHIFT) evs.
Proof using shift_pos.
  induction cnt as [|cnt IH]; intros t a d num a2 num2 evs Href.
  - cbn in Href. injection Href as <- <- <-. constructor.
  - cbn [ref_build] in Href.
    destruct (ref_build FURC_SHIFT bit cnt t (a + FURC_SHIFT) d
                (Z.lor (u32 (Z.shiftl num 1)) (bit a)))
      as [[a' num'] evs'] eqn:Erec.
    injection Href as <- <- <-. constructor; [cbn; nia|].
    apply IH in Erec. eapply Forall_impl; [exact Erec|]. cbn. intros e. nia.
Qed.

(** [n] attempts from position [a] and depth [d] stay below
    [a + n * d * FURC_SHIFT]. *)
Lemma ref_attempts_positions (n : nat) :
  forall m t a d v w evs,
    1 <= d <= a ->
    ref_attempts FURC_SHIFT bit n m t a d = (v, w, evs) ->
    Forall (fun e => 1 <= ev_idx e < a + Z.of_nat n * d * FURC_SHIFT) evs.
Proof using shift_pos.
  induction n as [|n IH]; intros m t a d v w evs Hd Href.
  - cbn in Href. injection Href as <- <- <-. constructor.
  - cbn [ref_attempts] in Href.
    assert (Hsplit : Z.of_nat (S n) * d * FURC_SHIFT
                     = Z.of_nat n * d * FURC_SHIFT + d * FURC_SHIFT) by lia.
    assert (Hnd : 0 <= Z.of_nat n * d * FURC_SHIFT) by nia.
    assert (Hstep : 1 <= d * FURC_SHIFT) by nia.
    destruct (ref_descend bit (Z.to_nat d) t a d) as [found evs1] eqn:Edesc.
    pose proof (ref_descend_positions _ _ _ _ _ _ Hd Edesc) as H1.
    assert (H1' : Forall (fun e => 1 <= ev_idx e
                                   < a + Z.of_nat (S n) * d * FURC_SHIFT) evs1).
    { eapply Forall_impl; [exact H1|]. cbn beta. intros e. lia. }
    destruct found as [[a1 d1]|]; [|injection Href as <- <- <-; exact H1'].
    apply ref_descend_found in Edesc as (Hd1 & Ha1 & _); [|exact Hd].
    assert (Hd1s : d1 * FURC_SHIFT <= d * FURC_SHIFT) by nia.
    destruct (ref_build FURC_SHIFT bit (Z.to_nat (d1 - 1)) t
                (a1 + FURC_SHIFT) d1 1) as [[a3 num] evs2] eqn:Ebuild.
    pose proof (ref_build_positions _ _ _ _ _ _ _ _ Ebuild) as H2.
    apply ref_build_position in Ebuild.
    assert (Hcnt : Z.of_nat (Z.to_nat (d1 - 1)) * FURC_SHIFT
                   = d1 * FURC_SHIFT - FURC_SHIFT) by nia.
    assert (H2' : Forall (fun e => 1 <= ev_idx e
                                   < a + Z.of_nat (S n) * d * FURC_SHIFT) evs2).
    { eapply Forall_impl; [exact H2|]. cbn beta. intros e. lia. }
    destruct (num <? m).
    + injection Href as <- <- <-. apply Forall_app. auto.
    + destruct (ref_attempts FURC_SHIFT bit n m (t + 1) a3 d1)
        as [[v' w'] evs3] eqn:Erec.
      injection Href as <- <- <-.
      apply IH in Erec; [|lia].
      assert (Hn1 : Z.of_nat n * d1 * FURC_SHIFT <= Z.of_nat n * d * FURC_SHIFT)
        by nia.
      apply Forall_app. split; [exact H1'|].
      apply Forall_app. split; [exact H2'|].
      eapply Forall_impl; [exact Erec|]. cbn beta. intros e. lia.
Qed.

(** A walk that returns otherwise than by giving up returns the same, with
    the same reads, when it is allowed more attempts. *)
Lemma ref_attempts_more (n k : nat) :
  forall m t a d v w evs,
    ref_attempts FURC_SHIFT bit n m t a d = (v, w, evs) ->
    w <> GaveUp ->
    ref_attempts FURC_SHIFT bit (n + k) m t a d = (v, w, evs).
Proof.
  induction n as [|n IH]; intros m t a d v w evs Href Hw.
  - cbn in Href. injection Href as <- <- <-. contradiction.
  - cbn [ref_attempts Nat.add] in *.
    destruct (ref_descend bit (Z.to_nat d) t a d) as [found evs1].
    destruct found as [[a1 d1]|]; [|exact Href].
    destruct (ref_build FURC_SHIFT bit (Z.to_nat (d1 - 1)) t
                (a1 + FURC_SHIFT) d1 1) as [[a3 num] evs2].
    destruct (num <? m); [exact Href|].
    destruct (ref_attempts FURC_SHIFT bit n m (t + 1) a3 d1)
      as [[v' w'] evs3] eqn:Erec.
    injection Href as <- <- <-.
    now rewrite (IH m (t + 1) a3 d1 v' w' evs3 Erec Hw).
Qed.

End ReferenceReach.

Section WalkReach.

Variables FURC_SHIFT FURC_MAX_TRIES : Z.
Variable byte_order : endianness.

(** X16. Every read of a walk on a pool of depth [d] is at a position from
    1 up to, but not including, [d * (1 + FURC_MAX_TRIES * FURC_SHIFT)],
    which is at most [farthest]: the walk uses the cells of the array below
    [farthest / 64 + 1] and needs no more. *)
Theorem reads_stay_below_farthest (key : list byte) (m : Z)
    (h : list (option Z)) :
  params_ok FURC_SHIFT FURC_MAX_TRIES ->
  cache_fits FURC_SHIFT FURC_MAX_TRIES (length h) ->
  1 < m <= furc_maximum_pool_size FURC_SHIFT ->
  exists w,
    furc_walk FURC_SHIFT FURC_MAX_TRIES byte_order key m h = Done w /\
    Forall (fun e =>
              1 <= ev_idx e
              < Z.log2_up m * (1 + FURC_MAX_TRIES * FURC_SHIFT) /\
              ev_idx e < farthest FURC_SHIFT FURC_MAX_TRIES /\
              ev_idx e / 64 < Z.of_nat (length h))
      (reads w).
Proof.
  intros Hp Hfit Hm.
  destruct (furc_walk_facts FURC_SHIFT FURC_MAX_TRIES byte_order key m h
              Hp Hfit Hm) as (w & Hrun & Href & _ & _ & Hd).
  exists w. split; [exact Hrun|].
  symmetry in Href. destruct w as [v wh c evs]. cbn [value why reads] in *.
  destruct Hp as (Hs & Hn & _). unfold cache_fits, farthest in *.
  apply ref_attempts_positions in Href; [|lia|lia].
  rewrite Z2Nat.id in Href by lia.
  eapply Forall_impl; [exact Href|]. cbn beta. intros e He.
  assert (Hb : Z.log2_up m + FURC_MAX_TRIES * Z.log2_up m * FURC_SHIFT
               <= FURC_SHIFT + FURC_MAX_TRIES * FURC_SHIFT * FURC_SHIFT) by nia.
  split; [lia|]. split; [lia|].
  apply Z.div_lt_upper_bound; lia.
Qed.

End WalkReach.

Lemma reads_stay_below_farthest_witness :
  exists w,
    furc_walk HashH.FURC_SHIFT HashH.FURC_MAX_TRIES LittleEndian ["c"%byte] 5
      (replicate 1024 None) = Done w /\
    Forall (fun e =>
              1 <= ev_idx e
              < Z.log2_up 5 * (1 + HashH.FURC_MAX_TRIES * HashH.FURC_SHIFT) /\
              ev_idx e < farthest HashH.FURC_SHIFT HashH.FURC_MAX_TRIES /\
              ev_idx e / 64 < Z.of_nat (length (replicate 1024 (@None Z))))
      (reads w).
Proof.
  apply (reads_stay_below_farthest HashH.FURC_SHIFT HashH.FURC_MAX_TRIES
           LittleEndian ["c"%byte] 5 (replicate 1024 None)); by_computation.
Defined.

(** X17. Raising [FURC_MAX_TRIES] moves no key whose walk did not give up:
    a walk that returns by accepting a candidate or by the depth reaching 0
    returns the same bucket under any larger number of attempts. *)
Theorem more_attempts_keep_the_bucket (FURC_SHIFT tries tries' : Z)
    (byte_order : endianness) (key : list byte) (m : Z)
    (h h' : list (option Z)) :
  params_ok FURC_SHIFT tries -> params_ok FURC_SHIFT tries' ->
  cache_fits FURC_SHIFT tries (length h) ->
  cache_fits FURC_SHIFT tries' (length h') ->
  tries <= tries' ->
  1 < m <= furc_maximum_pool_size FURC_SHIFT ->
  exists w,
    furc_walk FURC_SHIFT tries byte_order key m h = Done w /\
    (why w <> GaveUp ->
     furc_hash_array FURC_SHIFT tries' byte_order key m h' = Done (value w)).
Proof.
  intros Hp Hp' Hf Hf' Hle Hm.
  destruct (furc_walk_facts FURC_SHIFT tries byte_order key m h Hp Hf Hm)
    as (w & Hrun & Href & _).
  exists w. split; [exact Hrun|]. intros Hw.
  rewrite (furc_hash_array_value FURC_SHIFT tries' byte_order)
    by (auto; lia).
  destruct (Z.leb_spec m 1); [lia|]. f_equal.
  symmetry in Href. destruct w as [v wh c evs]. cbn [value why reads] in *.
  apply ref_attempts_more with (k := Z.to_nat (tries' - tries)) in Href;
    [|exact Hw].
  replace (Z.to_nat tries + Z.to_nat (tries' - tries))%nat
    with (Z.to_nat tries') in Href by (destruct Hp as (_ & ? & _); lia).
  now rewrite Href.
Qed.

Lemma more_attempts_keep_the_bucket_witness :
  exists w,
    furc_walk HashH.FURC_SHIFT 1 LittleEndian ["a"%byte] 5
      (replicate 300 None) = Done w /\
    (why w <> GaveUp ->
     furc_hash_array HashH.FURC_SHIFT HashH.FURC_MAX_TRIES LittleEndian
       ["a"%byte] 5 (replicate 1024 None) = Done (value w)).
Proof.
  apply (more_attempts_keep_the_bucket HashH.FURC_SHIFT 1
           HashH.FURC_MAX_TRIES LittleEndian ["a"%byte] 5
           (replicate 300 None) (replicate 1024 None)); by_computation.
Defined.

Lemma stream_of_short_key (key : list byte) (p : Z) :
  (length key < 8)%nat ->
  stream_bit LittleEndian key p = stream_bit BigEndian key p.
Proof.
  intros Hlen. unfold stream_bit. f_equal. f_equal.
  induction (Z.to_nat (p / 64)) as [|n IH]; cbn [block].
  - unfold murmur_hash_64A.
    assert (Hw : Z.to_nat (Z.of_nat (length key) / 8) = 0%nat)
      by (rewrite Z.div_small by lia; reflexivity).
    rewrite Hw. reflexivity.
  - now rewrite IH.
Qed.

(** X18. A key of fewer than 8 bytes falls in the same bucket on a
    little-endian and on a big-endian platform: its hash does not read a
    whole word, and the rehashing works on values, not on memory. *)
Theorem furc_hash_short_key_any_byte_order (FURC_SHIFT FURC_MAX_TRIES : Z)
    (key : list byte) (m : Z) (h h' : list (option Z)) :
  params_ok FURC_SHIFT FURC_MAX_TRIES ->
  cache_fits FURC_SHIFT FURC_MAX_TRIES (length h) ->
  cache_fits FURC_SHIFT FURC_MAX_TRIES (length h') ->
  0 <= m <= furc_maximum_pool_size FURC_SHIFT ->
  (length key < 8)%nat ->
  furc_hash_array FURC_SHIFT FURC_MAX_TRIES LittleEndian key m h
  = furc_hash_array FURC_SHIFT FURC_MAX_TRIES BigEndian key m h'.
Proof.
  intros Hp Hf Hf' Hm Hlen.
  rewrite !furc_hash_array_value by assumption.
  do 2 f_equal. destruct (m <=? 1); [reflexivity|].
  rewrite (ref_attempts_ext FURC_SHIFT (stream_bit LittleEndian key)
             (stream_bit BigEndian key)); [reflexivity|].
  intros p. now apply stream_of_short_key.
Qed.

Lemma furc_hash_short_key_any_byte_order_witness :
  furc_hash_array HashH.FURC_SHIFT HashH.FURC_MAX_TRIES LittleEndian
    ["f"; "u"; "r"; "c"]%byte 5 (replicate 1024 None)
  = furc_hash_array HashH.FURC_SHIFT HashH.FURC_MAX_TRIES BigEndian
      ["f"; "u"; "r"; "c"]%byte 5 (replicate 300 None).
Proof.
  apply (furc_hash_short_key_any_byte_order HashH.FURC_SHIFT
           HashH.FURC_MAX_TRIES ["f"; "u"; "r"; "c"]%byte 5
           (replicate 1024 None) (replicate 300 None));
    [by_computation..|cbn; lia].
Defined.

(** ** The table of CRC32 *)

Lemma crc32_bit_step_lxor (x y : Z) :
  crc32_bit_step (Z.lxor x y)
  = Z.lxor (crc32_bit_step x) (crc32_bit_step y).
Proof.
  unfold crc32_bit_step. rewrite Z.lxor_spec, Z.shiftr_lxor.
  destruct (Z.testbit x 0), (Z.testbit y 0); cbn [xorb];
    apply Z.bits_inj'; intros n Hn; rewrite ?Z.lxor_spec; btauto.
Qed.

Lemma crc32_bit_steps_lxor (k : nat) (x y : Z) :
  Nat.iter k crc32_bit_step (Z.lxor x y)
  = Z.lxor (Nat.iter k crc32_bit_step x) (Nat.iter k crc32_bit_step y).
Proof.
  induction k as [|k IH]; [reflexivity|].
  rewrite !Nat.iter_succ. now rewrite IH, crc32_bit_step_lxor.
Qed.

(** On a value whose [k] low bits are 0, [k] steps only shift. *)
Lemma crc32_bit_steps_shifted (k : nat) (z : Z) :
  Nat.iter k crc32_bit_step (Z.shiftl z (Z.of_nat k)) = z.
Proof.
  induction k as [|k IH].
  - cbn. apply Z.shiftl_0_r.
  - rewrite Nat.iter_succ_r. unfold crc32_bit_step at 2.
    rewrite Z.shiftl_spec_low by lia.
    rewrite Z.shiftr_shiftl_l by lia.
    replace (Z.of_nat (S k) - 1) with (Z.of_nat k) by lia. exact IH.
Qed.

Lemma split_low_byte (x : Z) :
  x = Z.lxor (Z.shiftl (Z.shiftr x 8) 8) (Z.land x 0xff).
Proof.
  apply Z.bits_inj'. intros n Hn. rewrite Z.lxor_spec.
  change 0xff with (Z.ones 8). rewrite Z.land_spec.
  destruct (Z_lt_ge_dec n 8) as [Hlt|Hge].
  - rewrite Z.shiftl_spec_low by lia. rewrite Z.ones_spec_low by lia.
    now rewrite andb_true_r.
  - rewrite Z.shiftl_spec by lia. rewrite Z.shiftr_spec by lia.
    rewrite Z.ones_spec_high by lia. rewrite andb_false_r, xorb_false_r.
    f_equal. lia.
Qed.

(** Every entry of the table is eight steps of the division on its index. *)
Lemma crc32tab_entries (i : Z) :
  0 <= i < 256 ->
  nth (Z.to_nat i) crc32tab 0 = Nat.iter 8 crc32_bit_step i.
Proof.
  intros Hi.
  assert (Htab : crc32tab
                 = map (fun j => Nat.iter 8 crc32_bit_step (Z.of_nat j))
                     (seq 0 256)) by (vm_compute; reflexivity).
  rewrite Htab.
  rewrite (nth_indep _ 0 (Nat.iter 8 crc32_bit_step (Z.of_nat 0)))
    by (rewrite length_map, length_seq; lia).
  rewrite (map_nth (fun j => Nat.iter 8 crc32_bit_step (Z.of_nat j))).
  rewrite seq_nth by lia. cbn [Nat.add]. now rewrite Z2Nat.id by lia.
Qed.

Lemma crc32_step_bitwise (sg : bool) (acc : Z) (b : byte) :
  crc32_step sg acc b = crc32_byte_bitwise acc b.
Proof.
  unfold crc32_step, crc32_byte_bitwise.
  rewrite crc32_index_any_sign.
  set (x := Z.lxor acc (byte_val b)).
  assert (Hlow : 0 <= Z.land x 0xff < 256).
  { change 0xff with (Z.ones 8). rewrite Z.land_ones by lia.
    apply Z.mod_pos_bound. lia. }
  rewrite crc32tab_entries by exact Hlow.
  rewrite (split_low_byte x) at 2.
  rewrite crc32_bit_steps_lxor.
  assert (Hs : Nat.iter 8 crc32_bit_step (Z.shiftl (Z.shiftr x 8) 8)
               = Z.shiftr x 8)
    by exact (crc32_bit_steps_shifted 8 (Z.shiftr x 8)).
  rewrite Hs.
  f_equal. unfold x. rewrite Z.shiftr_lxor.
  assert (Hb : Z.shiftr (byte_val b) 8 = 0).
  { rewrite Z.shiftr_div_pow2 by lia. apply Z.div_small.
    pose proof (byte_val_range b). lia. }
  rewrite Hb. symmetry. apply Z.lxor_0_r.
Qed.

(** X19. [crc32_hash] is the CRC-32 of the reflected polynomial 0xEDB88320:
    the table-driven loop computes, for every input, what the division bit
    by bit computes, each of the 256 entries of the table being the
    remainder of its index after eight steps. *)
Theorem crc32_hash_is_bitwise_crc32 (sg : bool) (key : list byte) :
  crc32_hash sg key = crc32_bitwise key.
Proof.
  unfold crc32_hash, crc32_bitwise. change (not32 0) with 0xFFFFFFFF.
  f_equal. generalize 0xFFFFFFFF.
  induction key as [|b key IH]; intros acc; cbn [fold_left].
  - reflexivity.
  - now rewrite crc32_step_bitwise, IH.
Qed.
